(** * Affine cipher cryptanalysis: a shallow embedding and its properties

    The three scripts of the repository are embedded as Rocq functions:
    - [cryptanalysis_affine.py]: [modulo_formula], [fill_gcd_affine],
      [m_inverse_affine], [decrypt_affine] (with the [is_m_inverse] flag),
      [analyze_known_plaintext], [analyze_affine] and
      [decrypt_from_known_plaintext];
    - [brute_force_affine.py]: [decrypt_affine], [brute_force] and
      [decrypt];
    - [exhaustive_key_affine.py]: [gcd], [exhaustive_key] and [decrypt].

    Python integers are [Z]; [//] and [%] are [Z.div] and [Z.modulo] (both
    round towards minus infinity, the remainder has the sign of the divisor).
    Python lists are Rocq lists in the same order.  A call either returns,
    raises, or exhausts the fuel given to its loops.  The [type(...) != int]
    guards always pass on [Z]; the [DEBUG] printing and the timing are left
    out.  The drivers ([decrypt], [analyze_affine],
    [decrypt_from_known_plaintext]) take the contents of the files they
    read and give the content of the file they write. *)

From Stdlib Require Import ZArith List Bool Lia Znumtheory Setoid Morphisms.
Import ListNotations.
Local Open Scope Z_scope.

(** ** Data model *)

(** The dict built by [modulo_formula]: [q = k * p + r]. *)
Module ModuloStep.
Record t : Set := mk { p : Z; q : Z; k : Z; r : Z }.
End ModuloStep.

(** The dict [affine_bezout_identity]: [m * x + n * y = 1]. *)
Module Bezout.
Record t : Set := mk { m : Z; x : Z; n : Z; y : Z }.
End Bezout.

(** The dict returned by [analyze_known_plaintext]; its key ['m^-1'] is
    the field [m_inverse]. *)
Module AffineParameters.
Record t : Set := mk { m : Z; m_inverse : Z; b : Z }.
End AffineParameters.

(** The exceptions the scripts can raise.  [AffineException] carries its
    [code] and its [dump] (the division chain, or nothing). *)
Inductive exn : Set :=
| AffineException (code : Z) (dump : option (list ModuloStep.t))
| IndexError
| ZeroDivisionError
| TypeError
| UnboundLocalError.

(** Outcome of a call. *)
Inductive result (A : Type) : Type :=
| Ok (a : A)
| Raise (e : exn)
| OutOfFuel.
Arguments Ok {A} a.
Arguments Raise {A} e.
Arguments OutOfFuel {A}.

Definition bind {A B : Type} (c : result A) (f : A -> result B) : result B :=
  match c with
  | Ok a => f a
  | Raise e => Raise e
  | OutOfFuel => OutOfFuel
  end.

Notation "x <- c ;; f" := (bind c (fun x => f))
  (at level 61, c at next level, right associativity).

Definition MAX_BYTES : Z := 0xFF.

(** ** Python list primitives *)

(** [l[i]], negative indices counting from the end. *)
Definition py_getitem {A : Type} (l : list A) (i : Z) : result A :=
  let len := Z.of_nat (length l) in
  let j := if i <? 0 then i + len else i in
  if (j <? 0) || (len <=? j) then Raise IndexError
  else match nth_error l (Z.to_nat j) with
       | Some a => Ok a
       | None => Raise IndexError
       end.

(** The list without its element at position [j]. *)
Fixpoint remove_at {A : Type} (j : nat) (l : list A) : list A :=
  match l, j with
  | [], _ => []
  | _ :: tl, O => tl
  | a :: tl, S j' => a :: remove_at j' tl
  end.

(** [l.pop(i)]: the element taken and the list left. *)
Definition py_pop {A : Type} (l : list A) (i : Z) : result (A * list A) :=
  let len := Z.of_nat (length l) in
  let j := if i <? 0 then i + len else i in
  if (j <? 0) || (len <=? j) then Raise IndexError
  else match nth_error l (Z.to_nat j) with
       | Some a => Ok (a, remove_at (Z.to_nat j) l)
       | None => Raise IndexError
       end.

(** [a // b] and [a % b]: division by zero raises. *)
Definition py_floordiv (a b : Z) : result Z :=
  if b =? 0 then Raise ZeroDivisionError else Ok (a / b).

Definition py_mod (a b : Z) : result Z :=
  if b =? 0 then Raise ZeroDivisionError else Ok (a mod b).

(** [range(lo, hi)] as the list of its values. *)
Fixpoint range_from (start : Z) (count : nat) : list Z :=
  match count with
  | O => []
  | S count' => start :: range_from (start + 1) count'
  end.

Definition py_range (lo hi : Z) : list Z := range_from lo (Z.to_nat (hi - lo)).

(** Outcome of a driver: the drivers can also fail in [bytearray], with a
    [ValueError]. *)
Inductive outcome (A : Type) : Type :=
| Finished (a : A)
| Failed (e : exn)
| FailedValueError
| Unfinished.
Arguments Finished {A} a.
Arguments Failed {A} e.
Arguments FailedValueError {A}.
Arguments Unfinished {A}.

Definition of_result {A : Type} (c : result A) : outcome A :=
  match c with
  | Ok a => Finished a
  | Raise e => Failed e
  | OutOfFuel => Unfinished
  end.

Definition bind_outcome {A B : Type} (c : outcome A) (f : A -> outcome B)
  : outcome B :=
  match c with
  | Finished a => f a
  | Failed e => Failed e
  | FailedValueError => FailedValueError
  | Unfinished => Unfinished
  end.

Notation "x <<- c ;; f" := (bind_outcome c (fun x => f))
  (at level 61, c at next level, right associativity).

(** [bytearray(values)]: every value must be in [range(0, 256)]. *)
Definition py_bytearray (values : list Z) : outcome (list Z) :=
  if forallb (fun v => (0 <=? v) && (v <? 256)) values
  then Finished values
  else FailedValueError.

(** ** cryptanalysis_affine.py *)

Module Cryptanalysis.

(** [modulo_formula(p, q)].  The source swaps its arguments by calling
    itself once when [p > q]; the second call never swaps again. *)
Definition modulo_formula (p q : Z) : result ModuloStep.t :=
  let '(p, q) := if p >? q then (q, p) else (p, q) in
  k <- py_floordiv q p ;;
  r <- py_mod q p ;;
  Ok (ModuloStep.mk p q k r).

(** The [while gcd_affine[-1]['r'] != 0] loop of [fill_gcd_affine]; one
    unit of fuel per iteration. *)
Fixpoint fill_gcd_affine_loop (fuel : nat) (gcd_affine : list ModuloStep.t)
  : result (list ModuloStep.t) :=
  last <- py_getitem gcd_affine (-1) ;;
  if negb (ModuloStep.r last =? 0) then
    match fuel with
    | O => OutOfFuel
    | S fuel' =>
        step <- modulo_formula (ModuloStep.r last) (ModuloStep.p last) ;;
        fill_gcd_affine_loop fuel' (gcd_affine ++ [step])
    end
  else Ok gcd_affine.

Definition fill_gcd_affine (fuel : nat) (m n : Z) : result (list ModuloStep.t) :=
  if n <=? m then Raise (AffineException 2 None)
  else
    first <- modulo_formula m n ;;
    gcd_affine <- fill_gcd_affine_loop fuel [first] ;;
    before_last <- py_getitem gcd_affine (-2) ;;
    if negb (ModuloStep.r before_last =? 1)
    then Raise (AffineException 3 (Some gcd_affine))
    else Ok gcd_affine.

(** One iteration of the backtracking loop of [m_inverse_affine], on the
    step just popped and the running identity ([None] before the first
    step with a remainder). *)
Definition backtrack_step (gcd_modulo_formula : ModuloStep.t)
    (affine_bezout_identity : option Bezout.t) : option Bezout.t :=
  if ModuloStep.r gcd_modulo_formula =? 0 then affine_bezout_identity
  else
    let k := ModuloStep.k gcd_modulo_formula * -1 in
    match affine_bezout_identity with
    | None =>
        Some (Bezout.mk (ModuloStep.p gcd_modulo_formula) k
                        (ModuloStep.q gcd_modulo_formula) 1)
    | Some b =>
        let y := Bezout.y b + Bezout.x b * k in
        let m := ModuloStep.q gcd_modulo_formula in
        Some (Bezout.mk (Bezout.n b) y m (Bezout.x b))
    end.

(** The backtracking loop pops the chain from its end until it is empty:
    a right fold over the chain. *)
Definition backtrack (gcd_modulo_formulas : list ModuloStep.t) : option Bezout.t :=
  fold_right backtrack_step None gcd_modulo_formulas.

Definition m_inverse_affine (fuel : nat) (m n : Z) : result Z :=
  if n <=? m then Raise (AffineException 4 None)
  else
    gcd_modulo_formulas <- fill_gcd_affine fuel m n ;;
    match backtrack gcd_modulo_formulas with
    | None => Raise TypeError
    | Some b =>
        Ok (if Bezout.x b <? 0 then n + Bezout.x b else Bezout.x b)
    end.

(** [decrypt_affine(m, n, b, C, is_m_inverse=False)]. *)
Definition decrypt_affine (fuel : nat) (m n b C : Z) (is_m_inverse : bool)
  : result Z :=
  if is_m_inverse then py_mod (m * (C - b)) n
  else
    m_inverse <- m_inverse_affine fuel m n ;;
    py_mod (m_inverse * (C - b)) n.

(** The two list objects passed to [analyze_known_plaintext]: the function
    pops from them, so their contents are threaded as a state. *)
Record Samples : Set :=
  mkSamples { known_plaintext : list Z; known_ciphertext : list Z }.

(** State and error monad over the two lists; the state reached when an
    exception is raised is kept. *)
Definition M (A : Type) : Type := Samples -> result A * Samples.

Definition ret {A : Type} (a : A) : M A := fun s => (Ok a, s).

Definition lift {A : Type} (c : result A) : M A := fun s => (c, s).

Definition bindM {A B : Type} (c : M A) (f : A -> M B) : M B :=
  fun s =>
    match c s with
    | (Ok a, s') => f a s'
    | (Raise e, s') => (Raise e, s')
    | (OutOfFuel, s') => (OutOfFuel, s')
    end.

Notation "x <~ c ;; f" := (bindM c (fun x => f))
  (at level 61, c at next level, right associativity).

(** [known_plaintext.pop(i)] and [known_ciphertext.pop(i)]. *)
Definition pop_plaintext (i : Z) : M Z :=
  fun s =>
    match py_pop (known_plaintext s) i with
    | Ok (a, rest) => (Ok a, mkSamples rest (known_ciphertext s))
    | Raise e => (Raise e, s)
    | OutOfFuel => (OutOfFuel, s)
    end.

Definition pop_ciphertext (i : Z) : M Z :=
  fun s =>
    match py_pop (known_ciphertext s) i with
    | Ok (a, rest) => (Ok a, mkSamples (known_plaintext s) rest)
    | Raise e => (Raise e, s)
    | OutOfFuel => (OutOfFuel, s)
    end.

(** Lines 214-234: the [try] block that solves [c = m * p (mod n)] for [m].
    An [AffineException] whose code is not 3 is swallowed by the handler
    and leaves [m] unbound, which the next use of [m] reports. *)
Definition solve_m (fuel : nat) (p c n : Z) : result Z :=
  match m_inverse_affine fuel p n with
  | Ok p_inverse => py_mod (c * p_inverse) n
  | Raise (AffineException code dump) =>
      if code =? 3 then
        match dump with
        | None => Raise TypeError
        | Some dump =>
            last <- py_getitem dump (-1) ;;
            rem <- py_mod c (ModuloStep.p last) ;;
            if rem =? 0 then
              p' <- py_floordiv p (ModuloStep.p last) ;;
              n' <- py_floordiv n (ModuloStep.p last) ;;
              p_inverse <- m_inverse_affine fuel p' n' ;;
              c' <- py_floordiv c (ModuloStep.p last) ;;
              n'' <- py_floordiv n (ModuloStep.p last) ;;
              py_mod (c' * p_inverse) n''
            else Raise (AffineException 7 None)
        end
      else Raise UnboundLocalError
  | Raise e => Raise e
  | OutOfFuel => OutOfFuel
  end.

(** [analyze_known_plaintext(known_plaintext, known_ciphertext)].  The two
    values drawn by [random.randint] are the arguments [first_eq_index]
    and [second_eq_index]. *)
Definition analyze_known_plaintext (fuel : nat)
    (first_eq_index second_eq_index : Z) : M AffineParameters.t :=
  fun s =>
    let len_p := Z.of_nat (length (known_plaintext s)) in
    let len_c := Z.of_nat (length (known_ciphertext s)) in
    if negb (len_p =? len_c) then (Raise (AffineException 5 None), s)
    else if len_p <? 2 then (Raise (AffineException 6 None), s)
    else
      (first_p <~ pop_plaintext first_eq_index ;;
       first_c <~ pop_ciphertext first_eq_index ;;
       second_p <~ pop_plaintext second_eq_index ;;
       second_c <~ pop_ciphertext second_eq_index ;;
       let '(first_p, first_c, second_p, second_c) :=
         if first_p <? second_p
         then (second_p, second_c, first_p, first_c)
         else (first_p, first_c, second_p, second_c) in
       let p := first_p - second_p in
       let c := first_c - second_c in
       let n := MAX_BYTES + 1 in
       m <~ lift (solve_m fuel p c n) ;;
       b <~ lift (py_mod (first_c - first_p * m) n) ;;
       m_inverse <~ lift (m_inverse_affine fuel m (MAX_BYTES + 1)) ;;
       ret (AffineParameters.mk m m_inverse b)) s.

(** What [random.randint(0, len - 1)] can return for the two draws on
    lists of [len] elements. *)
Definition valid_draws (len : nat) (first_eq_index second_eq_index : Z) : Prop :=
  0 <= first_eq_index <= Z.of_nat len - 1 /\
  0 <= second_eq_index <= Z.of_nat len - 2.

(** [analyze_affine]: the two files are read into fresh lists, given here
    as their contents. *)
Definition analyze_affine (fuel : nat) (first_eq_index second_eq_index : Z)
    (file_known_plaintext file_known_ciphertext : list Z)
  : result AffineParameters.t :=
  fst (analyze_known_plaintext fuel first_eq_index second_eq_index
         (mkSamples file_known_plaintext file_known_ciphertext)).

(** The loop [for i in range(len(ciphertext))] of
    [decrypt_from_known_plaintext], on the indices left and the
    [plaintext] built so far. *)
Fixpoint decrypt_loop (fuel : nat) (m_inverse b : Z) (ciphertext : list Z)
    (indices : list Z) (plaintext : list Z) : outcome (list Z) :=
  match indices with
  | [] => Finished plaintext
  | i :: rest =>
      c <<- of_result (py_getitem ciphertext i) ;;
      P <<- of_result (decrypt_affine fuel m_inverse (MAX_BYTES + 1) b c true) ;;
      byte <<- py_bytearray [P] ;;
      decrypt_loop fuel m_inverse b ciphertext rest (plaintext ++ byte)
  end.

(** [decrypt_from_known_plaintext]: the three files read are given as
    their contents, the value is the content of the file written. *)
Definition decrypt_from_known_plaintext (fuel : nat)
    (first_eq_index second_eq_index : Z)
    (file_ciphertext file_known_plaintext file_known_ciphertext : list Z)
  : outcome (list Z) :=
  affine_parameters <<-
    of_result (analyze_affine fuel first_eq_index second_eq_index
                 file_known_plaintext file_known_ciphertext) ;;
  decrypt_loop fuel (AffineParameters.m_inverse affine_parameters)
    (AffineParameters.b affine_parameters) file_ciphertext
    (py_range 0 (Z.of_nat (length file_ciphertext))) [].

End Cryptanalysis.

(** ** brute_force_affine.py *)

Module BruteForce.

Definition decrypt_affine (m_inverse n b C : Z) : result Z :=
  py_mod (m_inverse * (C - b)) n.

(** The condition of line 43; [and] evaluates its right operand only when
    the left one holds. *)
Definition header_test (header : list Z) (i j : Z) : result bool :=
  h0 <- py_getitem header 0 ;;
  P0 <- decrypt_affine i (MAX_BYTES + 1) j h0 ;;
  if P0 =? 0xFF then
    h1 <- py_getitem header 1 ;;
    P1 <- decrypt_affine i (MAX_BYTES + 1) j h1 ;;
    Ok (P1 =? 0xD8)
  else Ok false.

(** The loop over [j]; [None] when it ends without returning. *)
Fixpoint for_j (header : list Z) (i : Z) (js : list Z) : result (option (Z * Z)) :=
  match js with
  | [] => Ok None
  | j :: js' =>
      t <- header_test header i j ;;
      if t then Ok (Some (i, j)) else for_j header i js'
  end.

(** The loop over [i]; [None] is the pair [(None, None)]. *)
Fixpoint for_i (header : list Z) (m_inverses : list Z) : result (option (Z * Z)) :=
  match m_inverses with
  | [] => Ok None
  | i :: rest =>
      found <- for_j header i (py_range 0 (MAX_BYTES + 1)) ;;
      match found with
      | Some key => Ok (Some key)
      | None => for_i header rest
      end
  end.

Definition brute_force (ciphertext : list Z) : result (option (Z * Z)) :=
  let header := firstn 2 ciphertext in
  for_i header (py_range 1 (MAX_BYTES + 1)).

(** The loop [for i in range(len(ciphertext))] of [decrypt]. *)
Fixpoint decrypt_loop (m_inverse b : Z) (ciphertext : list Z)
    (indices : list Z) (plaintext : list Z) : outcome (list Z) :=
  match indices with
  | [] => Finished plaintext
  | i :: rest =>
      c <<- of_result (py_getitem ciphertext i) ;;
      P <<- of_result (decrypt_affine m_inverse (MAX_BYTES + 1) b c) ;;
      byte <<- py_bytearray [P] ;;
      decrypt_loop m_inverse b ciphertext rest (plaintext ++ byte)
  end.

(** [decrypt]: the file read is given as its content; the value is the
    content of the file written, [None] when the function returns before
    writing. *)
Definition decrypt (file_ciphertext : list Z) : outcome (option (list Z)) :=
  key <<- of_result (brute_force file_ciphertext) ;;
  match key with
  | None => Finished None
  | Some (m_inverse, b) =>
      plaintext <<-
        decrypt_loop m_inverse b file_ciphertext
          (py_range 0 (Z.of_nat (length file_ciphertext))) [] ;;
      Finished (Some plaintext)
  end.

End BruteForce.

(** ** exhaustive_key_affine.py *)

Module ExhaustiveKey.

(** [gcd(a, b)]; one unit of fuel per call. *)
Fixpoint gcd (fuel : nat) (a b : Z) : result Z :=
  match fuel with
  | O => OutOfFuel
  | S fuel' =>
      if a >? b then gcd fuel' b a
      else if a =? 0 then Ok b
      else
        r <- py_mod b a ;;
        gcd fuel' a r
  end.

Definition decrypt_affine (m_inverse n b C : Z) : result Z :=
  py_mod (m_inverse * (C - b)) n.

Definition header_test (header : list Z) (i j : Z) : result bool :=
  h0 <- py_getitem header 0 ;;
  P0 <- decrypt_affine i (MAX_BYTES + 1) j h0 ;;
  if P0 =? 0xFF then
    h1 <- py_getitem header 1 ;;
    P1 <- decrypt_affine i (MAX_BYTES + 1) j h1 ;;
    Ok (P1 =? 0xD8)
  else Ok false.

Fixpoint for_j (header : list Z) (i : Z) (js : list Z) : result (option (Z * Z)) :=
  match js with
  | [] => Ok None
  | j :: js' =>
      t <- header_test header i j ;;
      if t then Ok (Some (i, j)) else for_j header i js'
  end.

(** The loop over [i], which skips every [i] whose gcd with 256 is not 1. *)
Fixpoint for_i (fuel : nat) (header : list Z) (m_inverses : list Z)
  : result (option (Z * Z)) :=
  match m_inverses with
  | [] => Ok None
  | i :: rest =>
      g <- gcd fuel i (MAX_BYTES + 1) ;;
      if negb (g =? 1) then for_i fuel header rest
      else
        found <- for_j header i (py_range 0 (MAX_BYTES + 1)) ;;
        match found with
        | Some key => Ok (Some key)
        | None => for_i fuel header rest
        end
  end.

Definition exhaustive_key (fuel : nat) (ciphertext : list Z)
  : result (option (Z * Z)) :=
  let header := firstn 2 ciphertext in
  for_i fuel header (py_range 1 (MAX_BYTES + 1)).

Fixpoint decrypt_loop (m_inverse b : Z) (ciphertext : list Z)
    (indices : list Z) (plaintext : list Z) : outcome (list Z) :=
  match indices with
  | [] => Finished plaintext
  | i :: rest =>
      c <<- of_result (py_getitem ciphertext i) ;;
      P <<- of_result (decrypt_affine m_inverse (MAX_BYTES + 1) b c) ;;
      byte <<- py_bytearray [P] ;;
      decrypt_loop m_inverse b ciphertext rest (plaintext ++ byte)
  end.

(** [decrypt], as in brute_force_affine.py but on [exhaustive_key]. *)
Definition decrypt (fuel : nat) (file_ciphertext : list Z)
  : outcome (option (list Z)) :=
  key <<- of_result (exhaustive_key fuel file_ciphertext) ;;
  match key with
  | None => Finished None
  | Some (m_inverse, b) =>
      plaintext <<-
        decrypt_loop m_inverse b file_ciphertext
          (py_range 0 (Z.of_nat (length file_ciphertext))) [] ;;
      Finished (Some plaintext)
  end.

End ExhaustiveKey.

Import Cryptanalysis.

(** * Vocabulary of the statements *)

(** The element before the last one, when there is one. *)
Fixpoint before_last {A : Type} (l : list A) : option A :=
  match l with
  | [] => None
  | a :: tl =>
      match tl with
      | [] => None
      | [_] => Some a
      | _ :: _ :: _ => before_last tl
      end
  end.

(** A step as [modulo_formula] builds it from [0 < p <= q]. *)
Definition step_ok (s : ModuloStep.t) : Prop :=
  0 < ModuloStep.p s /\ ModuloStep.p s <= ModuloStep.q s /\
  ModuloStep.q s = ModuloStep.k s * ModuloStep.p s + ModuloStep.r s /\
  0 <= ModuloStep.r s < ModuloStep.p s.

(** The steps appended after [s] by the loop of [fill_gcd_affine]. *)
Inductive steps_from : ModuloStep.t -> list ModuloStep.t -> Prop :=
| steps_done s : ModuloStep.r s = 0 -> steps_from s []
| steps_next s s' suf :
    ModuloStep.r s <> 0 ->
    modulo_formula (ModuloStep.r s) (ModuloStep.p s) = Ok s' ->
    steps_from s' suf ->
    steps_from s (s' :: suf).

(** What the running identity satisfies once the loop has processed the
    chain from its end down to the step [s]. *)
Definition bezout_ok (s : ModuloStep.t) (b : Bezout.t) : Prop :=
  Bezout.m b = ModuloStep.p s /\ Bezout.n b = ModuloStep.q s /\
  Bezout.m b * Bezout.x b + Bezout.n b * Bezout.y b = 1 /\
  2 * Z.abs (Bezout.x b) <= Bezout.n b /\
  2 * Z.abs (Bezout.y b) <= Bezout.m b.

(** The signature test on the first two bytes [c0], [c1] for the key
    [(i, j)]. *)
Definition signature_ok (c0 c1 i j : Z) : Prop :=
  BruteForce.decrypt_affine i 256 j c0 = Ok 0xFF /\
  BruteForce.decrypt_affine i 256 j c1 = Ok 0xD8.

(** The searched space and its enumeration order. *)
Definition in_space (i j : Z) : Prop := 1 <= i <= 255 /\ 0 <= j <= 255.

Definition lex_lt (i' j' i j : Z) : Prop := i' < i \/ (i' = i /\ j' < j).

(** Nineteen nested calls are enough for every [i] of the search. *)
Definition gcd_fuel : nat := 19.

(** The cipher that the scripts attack, as their comments give it:
    [c = m.p + b (mod n)] with [n = MAX_BYTES + 1]. *)
Definition encrypt_byte (m b P : Z) : Z := (m * P + b) mod 256.

(** The values of a [bytes] object. *)
Definition is_byte (v : Z) : Prop := 0 <= v <= 255.

(** A Euclidean division chain: every step divides, each step continues
    the one before it, and only the last one has no remainder. *)
Fixpoint euclid_chain (chain : list ModuloStep.t) : Prop :=
  match chain with
  | [] => True
  | s :: rest =>
      step_ok s /\
      match rest with
      | [] => ModuloStep.r s = 0
      | s' :: _ =>
          ModuloStep.r s <> 0 /\
          ModuloStep.p s' = ModuloStep.r s /\
          ModuloStep.q s' = ModuloStep.p s
      end /\
      euclid_chain rest
  end.

(** Lines 185-243 of [analyze_known_plaintext], on the two samples it has
    popped: [(p1, c1)] first, [(p2, c2)] second. *)
Definition key_from_samples (fuel : nat) (p1 c1 p2 c2 : Z)
  : result AffineParameters.t :=
  let '(first_p, first_c, second_p, second_c) :=
    if p1 <? p2 then (p2, c2, p1, c1) else (p1, c1, p2, c2) in
  m <- solve_m fuel (first_p - second_p) (first_c - second_c) (MAX_BYTES + 1) ;;
  b <- py_mod (first_c - first_p * m) (MAX_BYTES + 1) ;;
  m_inverse <- m_inverse_affine fuel m (MAX_BYTES + 1) ;;
  Ok (AffineParameters.mk m m_inverse b).

(** Congruence modulo [N] with its compatibility with the ring
    operations, for rewriting. *)
#[local] Instance eqm_equivalence (N : Z) : Equivalence (eqm N) := eqm_setoid N.
#[local] Instance eqm_add (N : Z) : Proper (eqm N ==> eqm N ==> eqm N) Z.add :=
  Zplus_eqm N.
#[local] Instance eqm_sub (N : Z) : Proper (eqm N ==> eqm N ==> eqm N) Z.sub :=
  Zminus_eqm N.
#[local] Instance eqm_mul (N : Z) : Proper (eqm N ==> eqm N ==> eqm N) Z.mul :=
  Zmult_eqm N.

(** * Properties *)

(** ** Python list primitives *)

Lemma py_getitem_nat {A : Type} (l : list A) (j : nat) (a : A) :
  nth_error l j = Some a -> py_getitem l (Z.of_nat j) = Ok a.
Proof.
  intros H. unfold py_getitem; cbv zeta.
  assert (Hlt : (j < length l)%nat) by (apply nth_error_Some; congruence).
  destruct (Z.ltb_spec (Z.of_nat j) 0); [lia|].
  destruct (Z.ltb_spec (Z.of_nat j) 0); [lia|].
  destruct (Z.leb_spec (Z.of_nat (length l)) (Z.of_nat j)); [lia|].
  cbn [orb]. rewrite Nat2Z.id, H. reflexivity.
Qed.

Lemma py_getitem_neg {A : Type} (l : list A) (i : Z) :
  i < 0 -> 0 <= i + Z.of_nat (length l) ->
  py_getitem l i = py_getitem l (i + Z.of_nat (length l)).
Proof.
  intros Hneg Hpos. unfold py_getitem; cbv zeta.
  assert (E1 : (i <? 0) = true) by (apply Z.ltb_lt; lia).
  assert (E2 : (i + Z.of_nat (length l) <? 0) = false) by (apply Z.ltb_ge; lia).
  rewrite E1, E2. cbv iota. rewrite E2. reflexivity.
Qed.

Lemma py_getitem_last {A : Type} (pre : list A) (a : A) :
  py_getitem (pre ++ [a]) (-1) = Ok a.
Proof.
  rewrite py_getitem_neg by (rewrite ?length_app; cbn [length]; lia).
  replace (-1 + Z.of_nat (length (pre ++ [a]))) with (Z.of_nat (length pre))
    by (rewrite length_app; cbn [length]; lia).
  apply py_getitem_nat.
  rewrite nth_error_app2, Nat.sub_diag by lia. reflexivity.
Qed.

Lemma py_getitem_before_last {A : Type} (l : list A) :
  py_getitem l (-2) =
  match before_last l with
  | Some a => Ok a
  | None => Raise IndexError
  end.
Proof.
  induction l as [|a [|b [|c tl]] IH]; try reflexivity.
  change (before_last (a :: b :: c :: tl)) with (before_last (b :: c :: tl)).
  rewrite <- IH.
  rewrite (py_getitem_neg (a :: b :: c :: tl)) by (cbn [length]; lia).
  rewrite (py_getitem_neg (b :: c :: tl)) by (cbn [length]; lia).
  replace (-2 + Z.of_nat (length (a :: b :: c :: tl)))
    with (Z.of_nat (S (length tl))) by (cbn [length]; lia).
  replace (-2 + Z.of_nat (length (b :: c :: tl)))
    with (Z.of_nat (length tl)) by (cbn [length]; lia).
  destruct (nth_error (b :: c :: tl) (length tl)) as [e|] eqn:E.
  - rewrite (py_getitem_nat (b :: c :: tl) _ e E).
    apply py_getitem_nat. exact E.
  - apply nth_error_None in E. cbn [length] in E. lia.
Qed.

Lemma before_last_app {A : Type} (pre l : list A) :
  (2 <= length l)%nat -> before_last (pre ++ l) = before_last l.
Proof.
  intros H. induction pre as [|a pre IH]; [reflexivity|].
  cbn [app]. rewrite <- IH.
  destruct (pre ++ l) as [|b [|c tl]] eqn:E; try reflexivity.
  apply (f_equal (@length A)) in E. rewrite length_app in E. cbn in E. lia.
Qed.

(** ** The division chain of [fill_gcd_affine] *)

Lemma modulo_formula_ordered (a b : Z) :
  0 < a -> a <= b ->
  modulo_formula a b = Ok (ModuloStep.mk a b (b / a) (b mod a)).
Proof.
  intros Ha Hab. unfold modulo_formula, py_floordiv, py_mod.
  destruct (Z.gtb_spec a b); [lia|].
  destruct (Z.eqb_spec a 0); [lia|]. reflexivity.
Qed.

Lemma modulo_formula_step_ok (a b : Z) (s : ModuloStep.t) :
  0 < a -> a <= b -> modulo_formula a b = Ok s ->
  step_ok s /\ ModuloStep.p s = a /\ ModuloStep.q s = b.
Proof.
  intros Ha Hab H. rewrite modulo_formula_ordered in H by assumption.
  injection H as <-. unfold step_ok. cbn.
  pose proof (Z.mod_pos_bound b a Ha).
  pose proof (Z.div_mod b a ltac:(lia)).
  repeat split; lia.
Qed.

Lemma step_ok_next (s s' : ModuloStep.t) :
  step_ok s -> ModuloStep.r s <> 0 ->
  modulo_formula (ModuloStep.r s) (ModuloStep.p s) = Ok s' ->
  step_ok s' /\ ModuloStep.p s' = ModuloStep.r s /\
  ModuloStep.q s' = ModuloStep.p s.
Proof.
  intros (Hp & Hpq & Hq & Hr) Hnz H.
  apply modulo_formula_step_ok in H; [exact H | lia | lia].
Qed.

Lemma step_ok_next_exists (s : ModuloStep.t) :
  step_ok s -> ModuloStep.r s <> 0 ->
  exists s', modulo_formula (ModuloStep.r s) (ModuloStep.p s) = Ok s'.
Proof.
  intros (Hp & Hpq & Hq & Hr) Hnz.
  eexists. apply modulo_formula_ordered; lia.
Qed.

Lemma fill_gcd_affine_loop_steps (fuel : nat) :
  forall pre s chain,
    fill_gcd_affine_loop fuel (pre ++ [s]) = Ok chain ->
    exists suf, chain = pre ++ s :: suf /\ steps_from s suf.
Proof.
  induction fuel as [|fuel IH]; intros pre s chain H;
    cbn [fill_gcd_affine_loop] in H;
    rewrite py_getitem_last in H; cbn [bind] in H;
    destruct (Z.eqb_spec (ModuloStep.r s) 0) as [E|E]; cbn [negb] in H;
    try discriminate.
  - injection H as <-. exists []. split; [reflexivity | now constructor].
  - injection H as <-. exists []. split; [reflexivity | now constructor].
  - destruct (modulo_formula (ModuloStep.r s) (ModuloStep.p s)) as [s'| |] eqn:F;
      cbn [bind] in H; try discriminate.
    apply IH in H. destruct H as (suf & -> & Hsuf).
    exists (s' :: suf). split.
    + rewrite <- app_assoc. reflexivity.
    + econstructor; eassumption.
Qed.

Lemma fill_gcd_affine_loop_returns (fuel : nat) :
  forall pre s,
    step_ok s -> (Z.to_nat (ModuloStep.r s) <= fuel)%nat ->
    exists chain, fill_gcd_affine_loop fuel (pre ++ [s]) = Ok chain.
Proof.
  induction fuel as [|fuel IH]; intros pre s Hok Hfuel;
    cbn [fill_gcd_affine_loop];
    rewrite py_getitem_last; cbn [bind];
    destruct (Z.eqb_spec (ModuloStep.r s) 0) as [E|E]; cbn [negb];
    try (eexists; reflexivity).
  - destruct Hok as (_ & _ & _ & Hr). lia.
  - destruct (step_ok_next_exists s Hok E) as (s' & F).
    rewrite F. cbn [bind].
    destruct (step_ok_next s s' Hok E F) as (Hok' & Hp' & Hq').
    apply IH; [exact Hok'|].
    destruct Hok as (_ & _ & _ & Hr), Hok' as (_ & _ & _ & Hr'). lia.
Qed.

(** The fuel only decides whether the loop ends. *)
Lemma fill_gcd_affine_loop_more_fuel (fuel : nat) :
  forall fuel' chain,
    (fuel <= fuel')%nat ->
    fill_gcd_affine_loop fuel chain <> OutOfFuel ->
    fill_gcd_affine_loop fuel' chain = fill_gcd_affine_loop fuel chain.
Proof.
  induction fuel as [|fuel IH]; intros fuel' chain Hle H.
  - destruct fuel'; [reflexivity|].
    cbn [fill_gcd_affine_loop] in *.
    destruct (py_getitem chain (-1)) as [s| |]; cbn [bind] in *; try reflexivity.
    destruct (negb (ModuloStep.r s =? 0)); [congruence | reflexivity].
  - destruct fuel' as [|fuel']; [lia|].
    cbn [fill_gcd_affine_loop] in *.
    destruct (py_getitem chain (-1)) as [s| |]; cbn [bind] in *; try reflexivity.
    destruct (negb (ModuloStep.r s =? 0)); [|reflexivity].
    destruct (modulo_formula (ModuloStep.r s) (ModuloStep.p s)) as [s'| |];
      cbn [bind] in *; try reflexivity.
    apply IH; [lia | exact H].
Qed.

Lemma steps_from_suffix (s : ModuloStep.t) (suf : list ModuloStep.t) :
  steps_from s suf -> step_ok s ->
  forall pre s' suf', s :: suf = pre ++ s' :: suf' ->
    steps_from s' suf' /\ step_ok s'.
Proof.
  induction 1 as [s Hr | s s1 suf Hr Hmf Hsteps IH]; intros Hok pre s' suf' E.
  - destruct pre as [|a [|b pre]]; cbn in E; try discriminate.
    injection E as <- <-. split; [now constructor | exact Hok].
  - destruct pre as [|a pre]; cbn in E.
    + injection E as <- <-. split; [econstructor; eassumption | exact Hok].
    + injection E as _ E.
      destruct (step_ok_next s s1 Hok Hr Hmf) as (Hok1 & _).
      exact (IH Hok1 pre s' suf' E).
Qed.

(** The chain ends on a step without remainder, whose divisor is the gcd;
    the step before it holds the gcd as its remainder. *)
Lemma steps_from_gcd (s : ModuloStep.t) (suf : list ModuloStep.t) :
  steps_from s suf -> step_ok s ->
  ModuloStep.p (last suf s) = Z.gcd (ModuloStep.p s) (ModuloStep.q s) /\
  ModuloStep.r (last suf s) = 0 /\
  (suf <> [] ->
   exists pen, before_last (s :: suf) = Some pen /\
               ModuloStep.r pen = Z.gcd (ModuloStep.p s) (ModuloStep.q s)).
Proof.
  induction 1 as [s Hr | s s1 suf Hr Hmf Hsteps IH]; intros Hok.
  - destruct Hok as (Hp & Hpq & Hq & Hrr). cbn [last].
    split; [|split; [exact Hr | congruence]].
    rewrite Hq, Hr, Z.add_0_r, Z.mul_comm, Z.gcd_mul_diag_l; lia.
  - destruct (step_ok_next s s1 Hok Hr Hmf) as (Hok1 & Hp1 & Hq1).
    destruct (IH Hok1) as (IHp & IHr & IHpen).
    assert (G : Z.gcd (ModuloStep.p s1) (ModuloStep.q s1) =
                Z.gcd (ModuloStep.p s) (ModuloStep.q s)).
    { destruct Hok as (Hp & Hpq & Hq & Hrr).
      rewrite Hp1, Hq1, Hq, Z.gcd_comm, (Z.add_comm _ (ModuloStep.r s)).
      rewrite Z.gcd_add_mult_diag_r. reflexivity. }
    assert (L : last (s1 :: suf) s = last suf s1).
    { clear. revert s1. induction suf as [|a suf IHs]; intros s1; [reflexivity|].
      cbn [last] in *. destruct suf; [reflexivity|]. apply IHs. }
    rewrite L, <- G. split; [exact IHp | split; [exact IHr|]].
    intros _. destruct suf as [|s2 suf].
    + exists s. split; [reflexivity|].
      cbn [last] in IHp. rewrite <- IHp. exact (eq_sym Hp1).
    + destruct IHpen as (pen & Hpen & Hgcd); [discriminate|].
      exists pen. split; [exact Hpen | exact Hgcd].
Qed.

(** ** Backtracking *)

Lemma step_ok_k_pos (s : ModuloStep.t) : step_ok s -> 1 <= ModuloStep.k s.
Proof.
  intros (Hp & Hpq & Hq & Hr).
  destruct (Z.lt_ge_cases (ModuloStep.k s) 1) as [Hk|Hk]; [|exact Hk].
  assert (ModuloStep.k s * ModuloStep.p s <= 0 * ModuloStep.p s)
    by (apply Z.mul_le_mono_nonneg_r; lia).
  lia.
Qed.

Lemma backtrack_first (s : ModuloStep.t) :
  step_ok s -> ModuloStep.r s = 1 ->
  exists b, backtrack_step s None = Some b /\ bezout_ok s b.
Proof.
  intros Hok H1. pose proof (step_ok_k_pos s Hok) as Hk.
  destruct Hok as (Hp & Hpq & Hq & Hr). unfold backtrack_step.
  rewrite H1. cbn [Z.eqb]. eexists. split; [reflexivity|].
  unfold bezout_ok; cbn [Bezout.m Bezout.x Bezout.n Bezout.y].
  repeat split; try lia.
  replace (Z.abs (ModuloStep.k s * -1)) with (ModuloStep.k s) by lia. nia.
Qed.

Lemma backtrack_next (s s' : ModuloStep.t) (b' : Bezout.t) :
  step_ok s -> ModuloStep.r s <> 0 ->
  ModuloStep.p s' = ModuloStep.r s -> ModuloStep.q s' = ModuloStep.p s ->
  bezout_ok s' b' ->
  exists b, backtrack_step s (Some b') = Some b /\ bezout_ok s b.
Proof.
  intros Hok Hnz Hp' Hq' (Hm & Hn & Hid & Hx & Hy).
  pose proof (step_ok_k_pos s Hok) as Hk.
  destruct Hok as (Hp & Hpq & Hq & Hr).
  unfold backtrack_step.
  destruct (Z.eqb_spec (ModuloStep.r s) 0) as [E|_]; [contradiction|].
  eexists. split; [reflexivity|].
  unfold bezout_ok; cbn [Bezout.m Bezout.x Bezout.n Bezout.y].
  rewrite Hp' in Hm. rewrite Hq' in Hn.
  repeat split; try lia.
  assert (Z.abs (Bezout.x b' * (ModuloStep.k s * -1)) =
          ModuloStep.k s * Z.abs (Bezout.x b')).
  { rewrite Z.abs_mul.
    replace (Z.abs (ModuloStep.k s * -1)) with (ModuloStep.k s) by lia. lia. }
  pose proof (Z.abs_triangle (Bezout.y b') (Bezout.x b' * (ModuloStep.k s * -1))).
  nia.
Qed.

(** Backtracking a chain whose step before the last has remainder 1. *)
Lemma backtrack_chain (s : ModuloStep.t) (suf : list ModuloStep.t) :
  steps_from s suf -> step_ok s ->
  forall pen, before_last (s :: suf) = Some pen -> ModuloStep.r pen = 1 ->
  exists b, backtrack (s :: suf) = Some b /\ bezout_ok s b.
Proof.
  induction 1 as [s Hr | s s1 suf Hr Hmf Hsteps IH]; intros Hok pen Hpen H1.
  - discriminate.
  - destruct (step_ok_next s s1 Hok Hr Hmf) as (Hok1 & Hp1 & Hq1).
    destruct suf as [|s2 suf].
    + injection Hpen as <-.
      inversion Hsteps as [? Hr1 |]; subst.
      unfold backtrack. cbn [fold_right].
      replace (backtrack_step s1 None) with (@None Bezout.t)
        by (unfold backtrack_step; rewrite Hr1; reflexivity).
      now apply backtrack_first.
    + destruct (IH Hok1 pen Hpen H1) as (b' & Hb' & Hok').
      unfold backtrack in *. cbn [fold_right] in *. rewrite Hb'.
      now apply (backtrack_next s s1 b').
Qed.

(** After the last step of the chain alone (remainder 0) the loop has not
    built an identity yet. *)
Lemma backtrack_single (s : ModuloStep.t) :
  ModuloStep.r s = 0 -> backtrack [s] = None.
Proof.
  intros H. unfold backtrack, backtrack_step. cbn [fold_right].
  rewrite H. reflexivity.
Qed.

(** The result of [fill_gcd_affine], when it returns. *)
Lemma fill_gcd_affine_chain (fuel : nat) (m n : Z) (chain : list ModuloStep.t) :
  0 < m -> fill_gcd_affine fuel m n = Ok chain ->
  m < n /\
  exists s suf pen,
    chain = s :: suf /\ ModuloStep.p s = m /\ ModuloStep.q s = n /\
    step_ok s /\ steps_from s suf /\
    before_last chain = Some pen /\ ModuloStep.r pen = 1.
Proof.
  intros Hm H. unfold fill_gcd_affine in H.
  destruct (Z.leb_spec n m) as [|Hlt]; [discriminate|].
  split; [exact Hlt|].
  destruct (modulo_formula m n) as [s| |] eqn:F; cbn [bind] in H; try discriminate.
  destruct (modulo_formula_step_ok m n s Hm ltac:(lia) F) as (Hok & Hp & Hq).
  destruct (fill_gcd_affine_loop fuel [s]) as [c| |] eqn:L; cbn [bind] in H;
    try discriminate.
  apply (fill_gcd_affine_loop_steps fuel []) in L. destruct L as (suf & -> & Hsteps).
  cbn [app] in H. rewrite py_getitem_before_last in H.
  destruct (before_last (s :: suf)) as [pen|] eqn:B; cbn [bind] in H;
    try discriminate.
  destruct (Z.eqb_spec (ModuloStep.r pen) 1) as [E|E]; cbn [negb] in H;
    try discriminate.
  injection H as <-. exists s, suf, pen.
  repeat (split; [first [assumption | reflexivity]|]). assumption.
Qed.

(** With [1 < m < n] coprime and fuel for [m] iterations,
    [fill_gcd_affine] returns a chain. *)
Lemma fill_gcd_affine_returns (fuel : nat) (m n : Z) :
  1 < m < n -> Z.gcd m n = 1 -> (Z.to_nat m <= fuel)%nat ->
  exists chain, fill_gcd_affine fuel m n = Ok chain.
Proof.
  intros Hm Hg Hfuel. unfold fill_gcd_affine.
  destruct (Z.leb_spec n m); [lia|].
  rewrite modulo_formula_ordered by lia. cbn [bind].
  set (s := ModuloStep.mk m n (n / m) (n mod m)).
  assert (Hok : step_ok s).
  { apply (modulo_formula_step_ok m n s); [lia | lia |].
    apply modulo_formula_ordered; lia. }
  destruct (fill_gcd_affine_loop_returns fuel [] s Hok) as (chain & L).
  { pose proof (Z.mod_pos_bound n m ltac:(lia)). cbn. lia. }
  cbn [app] in L. rewrite L. cbn [bind].
  apply (fill_gcd_affine_loop_steps fuel []) in L. destruct L as (suf & -> & Hsteps).
  cbn [app]. rewrite py_getitem_before_last.
  destruct (steps_from_gcd s suf Hsteps Hok) as (_ & _ & Hpen).
  destruct Hpen as (pen & -> & Hr).
  - intros ->. inversion Hsteps as [? Hr0 |]; subst. cbn in Hr0.
    apply Z.mod_divide in Hr0; [|lia].
    assert (Z.gcd m n = m) by (apply Z.divide_gcd_iff; [lia | exact Hr0]).
    lia.
  - cbn [bind]. cbn [ModuloStep.p ModuloStep.q s] in Hr. rewrite Hr, Hg.
    cbn. eexists. reflexivity.
Qed.

(** The modular inverse for [1 < m < n] coprime: the general statement
    behind the concrete cases below. *)
Lemma m_inverse_affine_spec (fuel : nat) (m n : Z) (chain : list ModuloStep.t) :
  0 < m -> fill_gcd_affine fuel m n = Ok chain ->
  exists b,
    backtrack chain = Some b /\ Bezout.m b = m /\ Bezout.n b = n /\
    m * Bezout.x b + n * Bezout.y b = 1 /\
    - n < Bezout.x b < n /\
    m_inverse_affine fuel m n =
      Ok (if Bezout.x b <? 0 then n + Bezout.x b else Bezout.x b).
Proof.
  intros Hm H.
  destruct (fill_gcd_affine_chain fuel m n chain Hm H)
    as (Hlt & s & suf & pen & -> & Hp & Hq & Hok & Hsteps & Hpen & H1).
  destruct (backtrack_chain s suf Hsteps Hok pen Hpen H1)
    as (b & Hb & Hbm & Hbn & Hid & Hx & Hy).
  exists b. rewrite Hp in Hbm. rewrite Hq in Hbn.
  repeat split; try assumption.
  - rewrite <- Hbm at 1. rewrite <- Hbn at 1. exact Hid.
  - lia.
  - lia.
  - unfold m_inverse_affine. destruct (Z.leb_spec n m); [lia|].
    rewrite H. cbn [bind]. rewrite Hb. reflexivity.
Qed.

Lemma m_inverse_affine_correct (fuel : nat) (m n : Z) :
  1 < m < n -> Z.gcd m n = 1 -> (Z.to_nat m <= fuel)%nat ->
  exists x, m_inverse_affine fuel m n = Ok x /\ 0 <= x < n /\ (m * x) mod n = 1.
Proof.
  intros Hm Hg Hfuel.
  destruct (fill_gcd_affine_returns fuel m n Hm Hg Hfuel) as (chain & H).
  destruct (m_inverse_affine_spec fuel m n chain ltac:(lia) H)
    as (b & _ & _ & _ & Hid & Hx & Hres).
  eexists. split; [exact Hres|].
  destruct (Z.ltb_spec (Bezout.x b) 0); (split; [lia|]).
  - replace (m * (n + Bezout.x b)) with (1 + (m - Bezout.y b) * n) by lia.
    rewrite Z.mod_add by lia. apply Z.mod_small. lia.
  - replace (m * Bezout.x b) with (1 + (- Bezout.y b) * n) by lia.
    rewrite Z.mod_add by lia. apply Z.mod_small. lia.
Qed.

(** ** Fuel *)

(** Once a call has returned or raised, more fuel does not change it. *)
Lemma bind_defined {A B : Type} (c : result A) (f : A -> result B) :
  bind c f <> OutOfFuel -> c <> OutOfFuel.
Proof. destruct c; cbn; congruence. Qed.

Lemma fill_gcd_affine_more_fuel (fuel fuel' : nat) (m n : Z) :
  (fuel <= fuel')%nat ->
  fill_gcd_affine fuel m n <> OutOfFuel ->
  fill_gcd_affine fuel' m n = fill_gcd_affine fuel m n.
Proof.
  intros Hle H. unfold fill_gcd_affine in *.
  destruct (n <=? m); [reflexivity|].
  destruct (modulo_formula m n) as [s| |]; cbn [bind] in *; try reflexivity.
  rewrite (fill_gcd_affine_loop_more_fuel fuel fuel' [s] Hle); [reflexivity|].
  exact (bind_defined _ _ H).
Qed.

Lemma m_inverse_affine_more_fuel (fuel fuel' : nat) (m n : Z) :
  (fuel <= fuel')%nat ->
  m_inverse_affine fuel m n <> OutOfFuel ->
  m_inverse_affine fuel' m n = m_inverse_affine fuel m n.
Proof.
  intros Hle H. unfold m_inverse_affine in *.
  destruct (n <=? m); [reflexivity|].
  rewrite (fill_gcd_affine_more_fuel fuel fuel' m n Hle); [reflexivity|].
  exact (bind_defined _ _ H).
Qed.

Lemma solve_m_more_fuel (fuel fuel' : nat) (p c n : Z) :
  (fuel <= fuel')%nat ->
  solve_m fuel p c n <> OutOfFuel ->
  solve_m fuel' p c n = solve_m fuel p c n.
Proof.
  intros Hle H. unfold solve_m in *.
  rewrite (m_inverse_affine_more_fuel fuel fuel' p n Hle)
    by (destruct (m_inverse_affine fuel p n); congruence).
  destruct (m_inverse_affine fuel p n) as [x|[code [dump|]| | | |]|];
    try reflexivity.
  destruct (code =? 3); [|reflexivity].
  destruct (py_getitem dump (-1)) as [last| |]; cbn [bind] in *; try reflexivity.
  destruct (py_mod c (ModuloStep.p last)) as [rem| |]; cbn [bind] in *;
    try reflexivity.
  destruct (rem =? 0); [|reflexivity].
  destruct (py_floordiv p (ModuloStep.p last)) as [p'| |]; cbn [bind] in *;
    try reflexivity.
  destruct (py_floordiv n (ModuloStep.p last)) as [n'| |]; cbn [bind] in *;
    try reflexivity.
  rewrite (m_inverse_affine_more_fuel fuel fuel' p' n' Hle); [reflexivity|].
  exact (bind_defined _ _ H).
Qed.

Lemma analyze_known_plaintext_more_fuel (fuel fuel' : nat) (i1 i2 : Z) (s : Samples) :
  (fuel <= fuel')%nat ->
  fst (analyze_known_plaintext fuel i1 i2 s) <> OutOfFuel ->
  analyze_known_plaintext fuel' i1 i2 s = analyze_known_plaintext fuel i1 i2 s.
Proof.
  intros Hle H. unfold analyze_known_plaintext in *.
  destruct (negb _); [reflexivity|].
  destruct (_ <? 2); [reflexivity|].
  unfold bindM in *.
  destruct (pop_plaintext i1 s) as [[p1| |] s1]; try reflexivity.
  destruct (pop_ciphertext i1 s1) as [[c1| |] s2]; try reflexivity.
  destruct (pop_plaintext i2 s2) as [[p2| |] s3]; try reflexivity.
  destruct (pop_ciphertext i2 s3) as [[c2| |] s4]; try reflexivity.
  destruct (if p1 <? p2 then _ else _) as [[[fp fc] sp] sc].
  unfold lift, ret in *.
  assert (Hs : solve_m fuel (fp - sp) (fc - sc) (MAX_BYTES + 1) <> OutOfFuel).
  { intros E. rewrite E in H. apply H. reflexivity. }
  rewrite (solve_m_more_fuel fuel fuel' _ _ _ Hle Hs).
  destruct (solve_m fuel (fp - sp) (fc - sc) (MAX_BYTES + 1)) as [m0| |];
    try reflexivity.
  destruct (py_mod (fc - fp * m0) (MAX_BYTES + 1)) as [b0| |]; try reflexivity.
  assert (Hi : m_inverse_affine fuel m0 (MAX_BYTES + 1) <> OutOfFuel).
  { intros E. rewrite E in H. apply H. reflexivity. }
  rewrite (m_inverse_affine_more_fuel fuel fuel' _ _ Hle Hi). reflexivity.
Qed.

(** ** Ranges *)

Lemma In_range_from (x : Z) (count : nat) :
  forall start, In x (range_from start count) <-> start <= x < start + Z.of_nat count.
Proof.
  induction count as [|count IH]; intros start; cbn [range_from In].
  - lia.
  - rewrite IH. lia.
Qed.

Lemma In_py_range (x lo hi : Z) : In x (py_range lo hi) <-> lo <= x < hi.
Proof. unfold py_range. rewrite In_range_from. lia. Qed.

(** Membership in one of the two ranges of the searches. *)
Ltac in_search_range :=
  apply In_py_range; change (MAX_BYTES + 1) with 256; lia.

(** The values of a range before one of its values are the smaller ones. *)
Lemma range_from_split (x : Z) (count : nat) :
  forall start l1 l2,
    range_from start count = l1 ++ x :: l2 ->
    forall y, In y l1 <-> start <= y < x.
Proof.
  induction count as [|count IH]; intros start l1 l2 E y; cbn [range_from] in E.
  - destruct l1; discriminate.
  - destruct l1 as [|a l1]; cbn [app] in E; injection E as <- E.
    + cbn [In]. lia.
    + assert (Hx : In x (range_from (start + 1) count))
        by (rewrite E; apply in_elt).
      apply In_range_from in Hx.
      cbn [In]. rewrite (IH _ _ _ E). lia.
Qed.

(** ** The two searches *)

Lemma decrypt_affine_256 (i j C : Z) :
  BruteForce.decrypt_affine i (MAX_BYTES + 1) j C = Ok ((i * (C - j)) mod 256).
Proof. reflexivity. Qed.

(** A returned key passed the test on its first header byte. *)
Lemma header_test_true (header : list Z) (i j : Z) :
  BruteForce.header_test header i j = Ok true ->
  exists h0, (i * (h0 - j)) mod 256 = 255.
Proof.
  unfold BruteForce.header_test.
  destruct (py_getitem header 0) as [h0| |]; cbn [bind]; try discriminate.
  rewrite decrypt_affine_256. cbn [bind].
  destruct (Z.eqb_spec ((i * (h0 - j)) mod 256) 0xFF) as [E|E];
    [|discriminate].
  intros _. exists h0. exact E.
Qed.

Lemma for_j_found (header : list Z) (i : Z) (js : list Z) (i' j : Z) :
  BruteForce.for_j header i js = Ok (Some (i', j)) ->
  i' = i /\ BruteForce.header_test header i j = Ok true /\
  exists l1 l2, js = l1 ++ j :: l2 /\
    Forall (fun j' => BruteForce.header_test header i j' = Ok false) l1.
Proof.
  induction js as [|j0 js IH]; cbn [BruteForce.for_j]; [discriminate|].
  destruct (BruteForce.header_test header i j0) as [[|]| |] eqn:T; cbn [bind];
    try discriminate.
  - intros H. injection H as <- <-.
    repeat split; [exact T|]. exists [], js. split; [reflexivity | constructor].
  - intros H. destruct (IH H) as (-> & Ht & l1 & l2 & -> & Hall).
    repeat split; [exact Ht|]. exists (j0 :: l1), l2.
    split; [reflexivity | now constructor].
Qed.

Lemma for_j_none (header : list Z) (i : Z) (js : list Z) :
  BruteForce.for_j header i js = Ok None ->
  Forall (fun j' => BruteForce.header_test header i j' = Ok false) js.
Proof.
  induction js as [|j0 js IH]; cbn [BruteForce.for_j]; [constructor|].
  destruct (BruteForce.header_test header i j0) as [[|]| |] eqn:T; cbn [bind];
    try discriminate.
  intros H. constructor; [exact T | exact (IH H)].
Qed.

Lemma for_i_found (header : list Z) (ms : list Z) (i j : Z) :
  BruteForce.for_i header ms = Ok (Some (i, j)) ->
  exists l1 l2, ms = l1 ++ i :: l2 /\
    Forall (fun i' => BruteForce.for_j header i' (py_range 0 (MAX_BYTES + 1)) = Ok None) l1 /\
    BruteForce.for_j header i (py_range 0 (MAX_BYTES + 1)) = Ok (Some (i, j)).
Proof.
  induction ms as [|i0 ms IH]; cbn [BruteForce.for_i]; [discriminate|].
  destruct (BruteForce.for_j header i0 _) as [[[i' j']|]| |] eqn:F; cbn [bind];
    try discriminate.
  - intros H. injection H as -> ->.
    destruct (for_j_found _ _ _ _ _ F) as (-> & _).
    exists [], ms. split; [reflexivity | split; [constructor | exact F]].
  - intros H. destruct (IH H) as (l1 & l2 & -> & Hall & Hf).
    exists (i0 :: l1), l2. split; [reflexivity | split; [now constructor | exact Hf]].
Qed.

Lemma for_i_none (header : list Z) (ms : list Z) :
  BruteForce.for_i header ms = Ok None ->
  Forall (fun i' => BruteForce.for_j header i' (py_range 0 (MAX_BYTES + 1)) = Ok None) ms.
Proof.
  induction ms as [|i0 ms IH]; cbn [BruteForce.for_i]; [constructor|].
  destruct (BruteForce.for_j header i0 _) as [[[i' j']|]| |] eqn:F; cbn [bind];
    try discriminate.
  intros H. constructor; [exact F | exact (IH H)].
Qed.

(** *** On a ciphertext of at least two bytes *)

Section TwoByteHeader.

Variables (c0 c1 : Z) (rest : list Z).

Lemma header_test_two (i j : Z) :
  BruteForce.header_test (firstn 2 (c0 :: c1 :: rest)) i j =
  Ok (((i * (c0 - j)) mod 256 =? 255) && ((i * (c1 - j)) mod 256 =? 216)).
Proof.
  unfold BruteForce.header_test. cbn [firstn].
  change (py_getitem [c0; c1] 0) with (Ok c0).
  change (py_getitem [c0; c1] 1) with (Ok c1).
  cbn [bind]. rewrite !decrypt_affine_256. cbn [bind].
  change 0xFF with 255. change 0xD8 with 216.
  destruct (_ =? 255); reflexivity.
Qed.

Lemma header_test_signature (i j : Z) :
  BruteForce.header_test (firstn 2 (c0 :: c1 :: rest)) i j = Ok true <->
  signature_ok c0 c1 i j.
Proof.
  rewrite header_test_two. unfold signature_ok.
  change (BruteForce.decrypt_affine i 256 j c0) with (Ok ((i * (c0 - j)) mod 256)).
  change (BruteForce.decrypt_affine i 256 j c1) with (Ok ((i * (c1 - j)) mod 256)).
  change 0xFF with 255. change 0xD8 with 216.
  split.
  - intros H. injection H as H. apply andb_true_iff in H.
    destruct H as [H0 H1]. apply Z.eqb_eq in H0, H1. now rewrite H0, H1.
  - intros [H0 H1]. injection H0 as H0. injection H1 as H1.
    rewrite H0, H1. reflexivity.
Qed.

Lemma for_j_returns (i : Z) (js : list Z) :
  exists found, BruteForce.for_j (firstn 2 (c0 :: c1 :: rest)) i js = Ok found.
Proof.
  induction js as [|j0 js IH]; cbn [BruteForce.for_j]; [eexists; reflexivity|].
  rewrite header_test_two. cbn [bind].
  destruct (_ && _); [eexists; reflexivity | exact IH].
Qed.

Lemma for_i_returns (ms : list Z) :
  exists found, BruteForce.for_i (firstn 2 (c0 :: c1 :: rest)) ms = Ok found.
Proof.
  induction ms as [|i0 ms IH]; cbn [BruteForce.for_i]; [eexists; reflexivity|].
  destruct (for_j_returns i0 (py_range 0 (MAX_BYTES + 1))) as ([key|] & ->);
    cbn [bind]; [eexists; reflexivity | exact IH].
Qed.

Lemma brute_force_sound (i j : Z) :
  BruteForce.brute_force (c0 :: c1 :: rest) = Ok (Some (i, j)) ->
  in_space i j /\ signature_ok c0 c1 i j /\
  forall i' j', in_space i' j' -> lex_lt i' j' i j -> ~ signature_ok c0 c1 i' j'.
Proof.
  unfold BruteForce.brute_force. intros H.
  destruct (for_i_found _ _ _ _ H) as (l1 & l2 & Hms & Hbefore & Hj).
  destruct (for_j_found _ _ _ _ _ Hj) as (_ & Htest & k1 & k2 & Hjs & Hfalse).
  assert (Hi : In i (py_range 1 (MAX_BYTES + 1))) by (rewrite Hms; apply in_elt).
  assert (Hjin : In j (py_range 0 (MAX_BYTES + 1))) by (rewrite Hjs; apply in_elt).
  apply In_py_range in Hi, Hjin. change (MAX_BYTES + 1) with 256 in Hi, Hjin.
  split; [unfold in_space; lia|].
  split; [apply header_test_signature; exact Htest|].
  intros i' j' [Hi' Hj'] Hlt Hsig.
  apply header_test_signature in Hsig.
  destruct Hlt as [Hlt | [-> Hlt]].
  - assert (Hin : In i' l1) by (apply (range_from_split _ _ _ _ _ Hms); lia).
    rewrite Forall_forall in Hbefore. specialize (Hbefore i' Hin).
    apply for_j_none in Hbefore. rewrite Forall_forall in Hbefore.
    assert (Hj'in : In j' (py_range 0 (MAX_BYTES + 1))) by in_search_range.
    specialize (Hbefore j' Hj'in). congruence.
  - assert (Hin : In j' k1) by (apply (range_from_split _ _ _ _ _ Hjs); lia).
    rewrite Forall_forall in Hfalse. specialize (Hfalse j' Hin). congruence.
Qed.

Lemma brute_force_exhausted :
  BruteForce.brute_force (c0 :: c1 :: rest) = Ok None ->
  forall i j, in_space i j -> ~ signature_ok c0 c1 i j.
Proof.
  unfold BruteForce.brute_force. intros H i j [Hi Hj] Hsig.
  apply header_test_signature in Hsig.
  apply for_i_none in H. rewrite Forall_forall in H.
  assert (Hin : In i (py_range 1 (MAX_BYTES + 1))) by in_search_range.
  specialize (H i Hin). apply for_j_none in H. rewrite Forall_forall in H.
  assert (Hjin : In j (py_range 0 (MAX_BYTES + 1))) by in_search_range.
  specialize (H j Hjin). congruence.
Qed.

Lemma brute_force_returns :
  exists found, BruteForce.brute_force (c0 :: c1 :: rest) = Ok found.
Proof. apply for_i_returns. Qed.

End TwoByteHeader.

Lemma lex_lt_trichotomy (i j i' j' : Z) :
  (i, j) = (i', j') \/ lex_lt i j i' j' \/ lex_lt i' j' i j.
Proof.
  unfold lex_lt.
  destruct (Z.lt_trichotomy i i') as [H|[H|H]]; [lia| |lia].
  destruct (Z.lt_trichotomy j j') as [H'|[H'|H']]; [lia| |lia].
  left. congruence.
Qed.

(** C3: on a ciphertext of at least two bytes [brute_force] returns a key
    exactly when that key is the first one, in the order [m_inverse]
    ascending from 1 to 255 then [b] ascending from 0 to 255, that decrypts
    the first two bytes to 0xFF and 0xD8; it returns the pair
    [(None, None)] exactly when no key of the space does; and on a
    ciphertext that starts with 4, 143 it returns (171, 7). *)
Theorem brute_force_first_match :
  (forall (c0 c1 : Z) (rest : list Z),
     (forall i j,
        BruteForce.brute_force (c0 :: c1 :: rest) = Ok (Some (i, j)) <->
        in_space i j /\ signature_ok c0 c1 i j /\
        forall i' j', in_space i' j' -> lex_lt i' j' i j ->
                      ~ signature_ok c0 c1 i' j') /\
     (BruteForce.brute_force (c0 :: c1 :: rest) = Ok None <->
      forall i j, in_space i j -> ~ signature_ok c0 c1 i j)) /\
  (forall rest : list Z,
     BruteForce.brute_force (4 :: 143 :: rest) = Ok (Some (171, 7))).
Proof.
  split.
  - intros c0 c1 rest. split.
    + intros i j. split; [apply brute_force_sound|].
      intros (Hin & Hsig & Hmin).
      destruct (brute_force_returns c0 c1 rest) as ([[i' j']|] & H).
      * destruct (brute_force_sound _ _ _ _ _ H) as (Hin' & Hsig' & Hmin').
        destruct (lex_lt_trichotomy i j i' j') as [E|[L|L]].
        -- rewrite H. injection E as -> ->. reflexivity.
        -- exfalso. exact (Hmin' i j Hin L Hsig).
        -- exfalso. exact (Hmin i' j' Hin' L Hsig').
      * exfalso. exact (brute_force_exhausted _ _ _ H i j Hin Hsig).
    + split; [apply brute_force_exhausted|].
      intros Hnone.
      destruct (brute_force_returns c0 c1 rest) as ([[i' j']|] & H);
        [|exact H].
      destruct (brute_force_sound _ _ _ _ _ H) as (Hin' & Hsig' & _).
      exfalso. exact (Hnone i' j' Hin' Hsig').
  - intros rest. unfold BruteForce.brute_force. cbn [firstn].
    vm_compute. reflexivity.
Qed.

(** ** Parity *)

Lemma even_mod_256 (a : Z) : Z.even (a mod 256) = Z.even a.
Proof.
  rewrite Z.mod_eq by lia. rewrite Z.even_sub, Z.even_mul.
  cbn. destruct (Z.even a); reflexivity.
Qed.

Lemma header_test_odd (header : list Z) (i j : Z) :
  BruteForce.header_test header i j = Ok true -> Z.even i = false.
Proof.
  intros H. destruct (header_test_true header i j H) as (h0 & E).
  apply (f_equal Z.even) in E. rewrite even_mod_256, Z.even_mul in E.
  cbn in E. destruct (Z.even i); [discriminate | reflexivity].
Qed.

(** ** [gcd] of exhaustive_key_affine.py *)

Lemma gcd_more_fuel (fuel : nat) :
  forall fuel' a b,
    (fuel <= fuel')%nat ->
    ExhaustiveKey.gcd fuel a b <> OutOfFuel ->
    ExhaustiveKey.gcd fuel' a b = ExhaustiveKey.gcd fuel a b.
Proof.
  induction fuel as [|fuel IH]; intros fuel' a b Hle H; [now contradiction H|].
  destruct fuel' as [|fuel']; [lia|].
  cbn [ExhaustiveKey.gcd] in *.
  destruct (a >? b); [apply IH; [lia | exact H]|].
  destruct (a =? 0); [reflexivity|].
  destruct (py_mod b a) as [r| |]; cbn [bind] in *; try reflexivity.
  apply IH; [lia | exact H].
Qed.

Lemma gcd_256_check :
  forallb (fun i =>
             match ExhaustiveKey.gcd gcd_fuel i (MAX_BYTES + 1) with
             | Ok g => (g =? Z.gcd i 256) && (implb (Z.odd i) (g =? 1))
             | _ => false
             end) (py_range 1 256) = true.
Proof. vm_compute. reflexivity. Qed.

Lemma gcd_256 (fuel : nat) (i : Z) :
  (gcd_fuel <= fuel)%nat -> 1 <= i <= 255 ->
  exists g, ExhaustiveKey.gcd fuel i (MAX_BYTES + 1) = Ok g /\
            g = Z.gcd i 256 /\ (Z.odd i = true -> g = 1).
Proof.
  intros Hfuel Hi.
  pose proof gcd_256_check as C. rewrite forallb_forall in C.
  specialize (C i ltac:(apply In_py_range; lia)).
  destruct (ExhaustiveKey.gcd gcd_fuel i (MAX_BYTES + 1)) as [g| |] eqn:G;
    try discriminate.
  exists g. rewrite (gcd_more_fuel gcd_fuel fuel _ _ Hfuel) by congruence.
  apply andb_true_iff in C. destruct C as [C1 C2]. apply Z.eqb_eq in C1.
  split; [exact G | split; [exact C1|]].
  intros Hodd. rewrite Hodd in C2. cbn in C2. now apply Z.eqb_eq in C2.
Qed.

(** ** [exhaustive_key] against [brute_force] *)

Lemma exhaustive_for_i_agrees (fuel : nat) (header : list Z) (ms : list Z) (i j : Z) :
  (gcd_fuel <= fuel)%nat ->
  Forall (fun i' => 1 <= i' <= 255) ms ->
  BruteForce.for_i header ms = Ok (Some (i, j)) ->
  Z.odd i = true ->
  ExhaustiveKey.for_i fuel header ms = Ok (Some (i, j)).
Proof.
  intros Hfuel Hms H Hodd.
  induction ms as [|i0 ms IH]; cbn [BruteForce.for_i] in H; [discriminate|].
  inversion Hms as [|? ? Hi0 Hms']; subst.
  cbn [ExhaustiveKey.for_i].
  destruct (gcd_256 fuel i0 Hfuel Hi0) as (g & -> & _ & Hg). cbn [bind].
  change (ExhaustiveKey.for_j header i0 (py_range 0 (MAX_BYTES + 1)))
    with (BruteForce.for_j header i0 (py_range 0 (MAX_BYTES + 1))).
  destruct (BruteForce.for_j header i0 _) as [[[i' j']|]| |] eqn:F;
    cbn [bind] in *; try discriminate.
  - injection H as -> ->.
    destruct (for_j_found _ _ _ _ _ F) as (-> & _).
    rewrite (Hg Hodd). reflexivity.
  - destruct (negb (g =? 1)); exact (IH Hms' H).
Qed.

Lemma exhaustive_for_i_found (fuel : nat) (header : list Z) (ms : list Z) (i j : Z) :
  ExhaustiveKey.for_i fuel header ms = Ok (Some (i, j)) ->
  In i ms /\
  BruteForce.for_j header i (py_range 0 (MAX_BYTES + 1)) = Ok (Some (i, j)).
Proof.
  induction ms as [|i0 ms IH]; cbn [ExhaustiveKey.for_i]; [discriminate|].
  destruct (ExhaustiveKey.gcd fuel i0 _) as [g| |]; cbn [bind]; try discriminate.
  change (ExhaustiveKey.for_j header i0 (py_range 0 (MAX_BYTES + 1)))
    with (BruteForce.for_j header i0 (py_range 0 (MAX_BYTES + 1))).
  destruct (negb (g =? 1)).
  - intros H. destruct (IH H) as [Hin Hf]. split; [now right | exact Hf].
  - destruct (BruteForce.for_j header i0 _) as [[[i' j']|]| |] eqn:F;
      cbn [bind]; try discriminate.
    + intros H. injection H as -> ->.
      destruct (for_j_found _ _ _ _ _ F) as (-> & _).
      split; [now left | exact F].
    + intros H. destruct (IH H) as [Hin Hf]. split; [now right | exact Hf].
Qed.

(** C4: when [brute_force] returns a key whose [m_inverse] is odd,
    [exhaustive_key], given fuel for its [gcd] calls, returns the same key
    on the same ciphertext. *)
Theorem exhaustive_key_agrees_with_brute_force
    (fuel : nat) (ciphertext : list Z) (i j : Z) :
  (gcd_fuel <= fuel)%nat ->
  (2 <= length ciphertext)%nat ->
  BruteForce.brute_force ciphertext = Ok (Some (i, j)) ->
  Z.odd i = true ->
  ExhaustiveKey.exhaustive_key fuel ciphertext = Ok (Some (i, j)).
Proof.
  intros Hfuel _ H Hodd. unfold ExhaustiveKey.exhaustive_key.
  apply exhaustive_for_i_agrees; try assumption.
  apply Forall_forall. intros x Hx. apply In_py_range in Hx.
  change (MAX_BYTES + 1) with 256 in Hx. lia.
Qed.

Lemma exhaustive_key_agrees_with_brute_force_witness :
  (gcd_fuel <= 19)%nat /\ (2 <= length [4; 143; 0])%nat /\
  BruteForce.brute_force [4; 143; 0] = Ok (Some (171, 7)) /\
  Z.odd 171 = true /\
  ExhaustiveKey.exhaustive_key 19 [4; 143; 0] = Ok (Some (171, 7)).
Proof.
  assert (H1 : (gcd_fuel <= 19)%nat) by (unfold gcd_fuel; lia).
  assert (H2 : (2 <= length [4; 143; 0])%nat) by (cbn; lia).
  assert (H3 : BruteForce.brute_force [4; 143; 0] = Ok (Some (171, 7)))
    by (vm_compute; reflexivity).
  assert (H4 : Z.odd 171 = true) by reflexivity.
  split; [exact H1 | split; [exact H2 | split; [exact H3 | split; [exact H4|]]]].
  exact (exhaustive_key_agrees_with_brute_force 19 [4; 143; 0] 171 7 H1 H2 H3 H4).
Defined.

(** C10: an even [m_inverse] decrypts every byte to an even value, never
    to 0xFF, in both scripts; so the key returned by [brute_force] or by
    [exhaustive_key] never has an even [m_inverse]. *)
Theorem even_m_inverse_never_returned :
  (forall m_inverse b C,
     Z.even m_inverse = true -> 0 <= b <= 255 -> 0 <= C <= 255 ->
     exists P,
       BruteForce.decrypt_affine m_inverse 256 b C = Ok P /\
       ExhaustiveKey.decrypt_affine m_inverse 256 b C = Ok P /\
       Z.even P = true /\ P <> 0xFF) /\
  (forall ciphertext i j,
     BruteForce.brute_force ciphertext = Ok (Some (i, j)) -> Z.even i = false) /\
  (forall fuel ciphertext i j,
     ExhaustiveKey.exhaustive_key fuel ciphertext = Ok (Some (i, j)) ->
     Z.even i = false).
Proof.
  split; [|split].
  - intros m_inverse b C Heven _ _.
    exists ((m_inverse * (C - b)) mod 256).
    split; [reflexivity | split; [reflexivity|]].
    assert (E : Z.even ((m_inverse * (C - b)) mod 256) = true)
      by (rewrite even_mod_256, Z.even_mul, Heven; reflexivity).
    split; [exact E|]. intros F. rewrite F in E. discriminate.
  - intros ciphertext i j H. unfold BruteForce.brute_force in H.
    destruct (for_i_found _ _ _ _ H) as (_ & _ & _ & _ & Hj).
    destruct (for_j_found _ _ _ _ _ Hj) as (_ & Ht & _).
    exact (header_test_odd _ _ _ Ht).
  - intros fuel ciphertext i j H. unfold ExhaustiveKey.exhaustive_key in H.
    destruct (exhaustive_for_i_found _ _ _ _ _ H) as (_ & Hj).
    destruct (for_j_found _ _ _ _ _ Hj) as (_ & Ht & _).
    exact (header_test_odd _ _ _ Ht).
Qed.

Lemma even_m_inverse_never_returned_witness :
  (exists P,
     BruteForce.decrypt_affine 2 256 7 4 = Ok P /\
     ExhaustiveKey.decrypt_affine 2 256 7 4 = Ok P /\
     Z.even P = true /\ P <> 0xFF) /\
  Z.even 171 = false.
Proof.
  split.
  - apply (proj1 even_m_inverse_never_returned 2 7 4); [reflexivity | lia | lia].
  - apply (proj1 (proj2 even_m_inverse_never_returned) [4; 143] 171 7).
    vm_compute. reflexivity.
Defined.

Lemma brute_force_first_match_witness :
  in_space 171 7 /\ signature_ok 4 143 171 7 /\
  BruteForce.brute_force [4; 143] = Ok (Some (171, 7)).
Proof.
  assert (H : BruteForce.brute_force [4; 143] = Ok (Some (171, 7)))
    by (vm_compute; reflexivity).
  destruct (proj1 (proj1 (proj1 brute_force_first_match 4 143 []) 171 7) H)
    as (Hin & Hsig & _).
  split; [exact Hin | split; [exact Hsig | exact H]].
Defined.

(** ** The modular inverse modulo 256 *)

(** What [m_inverse_affine] does for every [m] of [2, 255] coprime with
    256: it returns the inverse. *)
Lemma m_inverse_affine_256 (fuel : nat) (m : Z) :
  1 < m <= 255 -> Z.gcd m 256 = 1 -> (Z.to_nat m <= fuel)%nat ->
  exists x, m_inverse_affine fuel m 256 = Ok x /\ 0 <= x < 256 /\
            (m * x) mod 256 = 1.
Proof. intros Hm Hg Hfuel. apply m_inverse_affine_correct; [lia | exact Hg | exact Hfuel]. Qed.

(** C1: [m = 1] is coprime with 256, and [m_inverse_affine(1, 256)] raises
    [IndexError] instead of returning the inverse 1: the chain has the
    single step 256 = 256 * 1 + 0, and [fill_gcd_affine] reads
    [gcd_affine[-2]]. *)
Theorem m_inverse_affine_1_256_raises :
  Z.gcd 1 256 = 1 /\
  forall fuel : nat, m_inverse_affine fuel 1 256 = Raise IndexError.
Proof.
  split; [reflexivity|].
  intros fuel.
  rewrite (m_inverse_affine_more_fuel 0 fuel 1 256 ltac:(lia)); [reflexivity|].
  discriminate.
Qed.

(** The round trip for every [m] of [2, 255] coprime with 256. *)
Lemma round_trip_256 (fuel : nat) (m b P : Z) :
  1 < m <= 255 -> Z.gcd m 256 = 1 -> (Z.to_nat m <= fuel)%nat ->
  0 <= P <= 255 ->
  exists m_inverse,
    m_inverse_affine fuel m 256 = Ok m_inverse /\
    BruteForce.decrypt_affine m_inverse 256 b ((m * P + b) mod 256) = Ok P.
Proof.
  intros Hm Hg Hfuel HP.
  destruct (m_inverse_affine_256 fuel m Hm Hg Hfuel) as (x & Hx & _ & Hinv).
  exists x. split; [exact Hx|].
  change (BruteForce.decrypt_affine x 256 b ((m * P + b) mod 256))
    with (Ok ((x * ((m * P + b) mod 256 - b)) mod 256)).
  f_equal.
  rewrite <- Zmult_mod_idemp_r, Zminus_mod_idemp_l, Zmult_mod_idemp_r.
  replace (x * (m * P + b - b)) with ((m * x) * P) by ring.
  rewrite <- Zmult_mod_idemp_l, Hinv, Z.mul_1_l.
  apply Z.mod_small. lia.
Qed.

(** C2: for [m = 1] the round trip does not return the plaintext byte:
    the inverse is never obtained, both when [decrypt_affine] computes it
    itself and when it is computed first and passed on. *)
Theorem round_trip_1_raises :
  forall (fuel : nat) (b P : Z),
    Cryptanalysis.decrypt_affine fuel 1 256 b ((1 * P + b) mod 256) false
      = Raise IndexError /\
    (m_inverse <- m_inverse_affine fuel 1 256 ;;
     BruteForce.decrypt_affine m_inverse 256 b ((1 * P + b) mod 256))
      = Raise IndexError.
Proof.
  intros fuel b P. unfold Cryptanalysis.decrypt_affine.
  rewrite (m_inverse_affine_more_fuel 0 fuel 1 256 ltac:(lia)) by discriminate.
  split; reflexivity.
Qed.

(** C5: [m_inverse_affine(128, 256)] raises [IndexError], not the
    [AffineException] of code 3: the chain is the single step
    256 = 2 * 128 + 0 and [gcd_affine[-2]] does not exist. *)
Theorem m_inverse_affine_128_256_raises :
  forall fuel : nat,
    fill_gcd_affine_loop fuel [ModuloStep.mk 128 256 2 0]
      = Ok [ModuloStep.mk 128 256 2 0] /\
    fill_gcd_affine fuel 128 256 = Raise IndexError /\
    m_inverse_affine fuel 128 256 = Raise IndexError.
Proof.
  intros fuel.
  rewrite (fill_gcd_affine_loop_more_fuel 0 fuel _ ltac:(lia)) by discriminate.
  rewrite (fill_gcd_affine_more_fuel 0 fuel 128 256 ltac:(lia)) by discriminate.
  rewrite (m_inverse_affine_more_fuel 0 fuel 128 256 ltac:(lia)) by discriminate.
  repeat split.
Qed.

(** ** The invariant of the backtracking loop *)

(** C9: on coprime [0 < m < n] with [1 < m] and fuel for [m] iterations
    [fill_gcd_affine] returns a chain, so the backtracking loop runs; and
    whenever it runs, the identity held after the loop has processed any
    number of steps (the steps [suf] popped so far, [pre] still in the
    list) satisfies [m * x + n * y = gcd(m, n) = 1]; the last identity is
    on [m] and [n] themselves, and the value returned is its [x], plus [n]
    exactly when [x] is negative, which lies in [0, n). *)
Theorem backtracking_keeps_bezout_identity (fuel : nat) (m n : Z) :
  0 < m < n -> Z.gcd m n = 1 ->
  (1 < m -> (Z.to_nat m <= fuel)%nat ->
   exists chain, fill_gcd_affine fuel m n = Ok chain) /\
  forall chain : list ModuloStep.t,
    fill_gcd_affine fuel m n = Ok chain ->
    (forall pre suf b,
       chain = pre ++ suf -> backtrack suf = Some b ->
       Bezout.m b * Bezout.x b + Bezout.n b * Bezout.y b = Z.gcd m n /\
       Z.gcd m n = 1) /\
    exists b,
      backtrack chain = Some b /\ Bezout.m b = m /\ Bezout.n b = n /\
      m_inverse_affine fuel m n =
        Ok (if Bezout.x b <? 0 then n + Bezout.x b else Bezout.x b) /\
      0 <= (if Bezout.x b <? 0 then n + Bezout.x b else Bezout.x b) < n.
Proof.
  intros Hm Hg. split.
  { intros H1 Hfuel. apply fill_gcd_affine_returns; [lia | exact Hg | exact Hfuel]. }
  intros chain H. split.
  - rewrite Hg. intros pre suf b E Hb. split; [|reflexivity].
    destruct (fill_gcd_affine_chain fuel m n chain ltac:(lia) H)
      as (_ & s & l & pen & -> & _ & _ & Hok & Hsteps & Hpen & H1).
    destruct suf as [|s1 [|s2 suf]].
    + discriminate.
    + destruct (steps_from_suffix s l Hsteps Hok pre s1 [] E) as (Hs1 & _).
      inversion Hs1 as [? Hr |]; subst.
      rewrite backtrack_single in Hb by exact Hr. discriminate.
    + destruct (steps_from_suffix s l Hsteps Hok pre s1 (s2 :: suf) E)
        as (Hs1 & Hok1).
      rewrite E, before_last_app in Hpen by (cbn [length]; lia).
      destruct (backtrack_chain s1 (s2 :: suf) Hs1 Hok1 pen Hpen H1)
        as (b' & Hb' & _ & _ & Hid & _).
      rewrite Hb in Hb'. injection Hb' as <-. exact Hid.
  - destruct (m_inverse_affine_spec fuel m n chain ltac:(lia) H)
      as (b & Hb & Hbm & Hbn & _ & Hx & Hres).
    exists b. repeat split; try assumption;
      destruct (Z.ltb_spec (Bezout.x b) 0); lia.
Qed.

Lemma backtracking_keeps_bezout_identity_witness :
  0 < 7 < 256 /\ Z.gcd 7 256 = 1 /\
  exists b,
    backtrack [ModuloStep.mk 7 256 36 4; ModuloStep.mk 4 7 1 3;
               ModuloStep.mk 3 4 1 1; ModuloStep.mk 1 3 3 0] = Some b /\
    Bezout.m b = 7 /\ Bezout.n b = 256 /\
    m_inverse_affine 3 7 256 =
      Ok (if Bezout.x b <? 0 then 256 + Bezout.x b else Bezout.x b) /\
    0 <= (if Bezout.x b <? 0 then 256 + Bezout.x b else Bezout.x b) < 256.
Proof.
  assert (H1 : 0 < 7 < 256) by lia.
  assert (H2 : Z.gcd 7 256 = 1) by reflexivity.
  split; [exact H1 | split; [exact H2|]].
  refine (proj2 (proj2 (backtracking_keeps_bezout_identity 3 7 256 H1 H2) _ _)).
  reflexivity.
Defined.

(** ** The known-plaintext solver *)

(** C6: on the samples [5, 2] and [22, 13] [analyze_known_plaintext]
    returns m = 3, m^-1 = 171 and b = 7, whichever index [random.randint]
    draws first. *)
Theorem analyze_known_plaintext_sample
    (fuel : nat) (first_eq_index second_eq_index : Z) :
  (1 <= fuel)%nat ->
  valid_draws 2 first_eq_index second_eq_index ->
  fst (analyze_known_plaintext fuel first_eq_index second_eq_index
         (mkSamples [5; 2] [22; 13]))
  = Ok (AffineParameters.mk 3 171 7).
Proof.
  intros Hfuel [H1 H2].
  assert (E2 : second_eq_index = 0) by (cbn in H2; lia). subst second_eq_index.
  assert (E1 : first_eq_index = 0 \/ first_eq_index = 1) by (cbn in H1; lia).
  destruct E1 as [-> | ->];
    rewrite (analyze_known_plaintext_more_fuel 1 fuel _ _ _ Hfuel);
    solve [reflexivity | discriminate].
Qed.

Lemma analyze_known_plaintext_sample_witness :
  (1 <= 1)%nat /\ valid_draws 2 1 0 /\
  fst (analyze_known_plaintext 1 1 0 (mkSamples [5; 2] [22; 13]))
  = Ok (AffineParameters.mk 3 171 7).
Proof.
  assert (H1 : (1 <= 1)%nat) by lia.
  assert (H2 : valid_draws 2 1 0) by (unfold valid_draws; cbn; lia).
  split; [exact H1 | split; [exact H2|]].
  exact (analyze_known_plaintext_sample 1 1 0 H1 H2).
Defined.

Lemma last_cons {A : Type} (l : list A) :
  forall a d, last (a :: l) d = last l a.
Proof.
  induction l as [|b l IH]; intros a d; [reflexivity|].
  change (last (a :: b :: l) d) with (last (b :: l) d).
  rewrite (IH b d), (IH b a). reflexivity.
Qed.

Lemma py_getitem_last_cons {A : Type} (a : A) (l : list A) :
  py_getitem (a :: l) (-1) = Ok (last l a).
Proof.
  destruct (exists_last (l := a :: l) ltac:(discriminate)) as (pre & z & E).
  rewrite <- (last_cons l a a), E, last_last. apply py_getitem_last.
Qed.

(** When [m] does not divide [n] and they are not coprime,
    [fill_gcd_affine] raises the exception of code 3, and the last step of
    the chain it carries holds the gcd. *)
Lemma fill_gcd_affine_not_coprime (fuel : nat) (m n : Z) :
  0 < m < n -> n mod m <> 0 -> Z.gcd m n <> 1 -> (Z.to_nat m <= fuel)%nat ->
  exists dump last,
    fill_gcd_affine fuel m n = Raise (AffineException 3 (Some dump)) /\
    py_getitem dump (-1) = Ok last /\ ModuloStep.p last = Z.gcd m n.
Proof.
  intros Hm Hnd Hg Hfuel. unfold fill_gcd_affine.
  destruct (Z.leb_spec n m); [lia|].
  rewrite modulo_formula_ordered by lia. cbn [bind].
  set (s := ModuloStep.mk m n (n / m) (n mod m)).
  assert (Hok : step_ok s).
  { apply (modulo_formula_step_ok m n s); [lia | lia |].
    apply modulo_formula_ordered; lia. }
  destruct (fill_gcd_affine_loop_returns fuel [] s Hok) as (chain & L).
  { pose proof (Z.mod_pos_bound n m ltac:(lia)). cbn. lia. }
  cbn [app] in L. rewrite L. cbn [bind].
  apply (fill_gcd_affine_loop_steps fuel []) in L. destruct L as (suf & -> & Hsteps).
  cbn [app]. rewrite py_getitem_before_last.
  destruct (steps_from_gcd s suf Hsteps Hok) as (Hlast & _ & Hpen).
  destruct Hpen as (pen & -> & Hr).
  - intros ->. inversion Hsteps as [? Hr0 |]; subst. cbn in Hr0. contradiction.
  - cbn [bind]. cbn [ModuloStep.p ModuloStep.q s] in Hr, Hlast.
    destruct (Z.eqb_spec (ModuloStep.r pen) 1) as [E|E]; [congruence|].
    cbn [negb]. exists (s :: suf), (last suf s).
    split; [reflexivity | split; [apply py_getitem_last_cons | exact Hlast]].
Qed.

(** Outside the single-step chains, the solver does raise the exception
    of code 7 when the gcd does not divide the ciphertext difference. *)
Lemma solve_m_no_solution (fuel : nat) (p c : Z) :
  0 < p < 256 -> 256 mod p <> 0 -> Z.gcd p 256 <> 1 ->
  c mod Z.gcd p 256 <> 0 -> (Z.to_nat p <= fuel)%nat ->
  solve_m fuel p c 256 = Raise (AffineException 7 None).
Proof.
  intros Hp Hnd Hg Hc Hfuel.
  destruct (fill_gcd_affine_not_coprime fuel p 256 Hp Hnd Hg Hfuel)
    as (dump & last & Hfill & Hlast & Hgcd).
  unfold solve_m, m_inverse_affine.
  destruct (Z.leb_spec 256 p); [lia|].
  rewrite Hfill. cbn [bind Z.eqb Pos.eqb]. rewrite Hlast. cbn [bind].
  unfold py_mod. rewrite Hgcd.
  destruct (Z.eqb_spec (Z.gcd p 256) 0) as [E|_].
  { apply Z.gcd_eq_0_l in E. lia. }
  cbn [bind].
  destruct (Z.eqb_spec (c mod Z.gcd p 256) 0); [contradiction | reflexivity].
Qed.

(** Two samples with the same plaintext byte: the difference 0 makes the
    first division fail. *)
Lemma solve_m_equal_plaintexts (fuel : nat) (c : Z) :
  solve_m fuel 0 c 256 = Raise ZeroDivisionError.
Proof. reflexivity. Qed.

(** C7: with the plaintext difference 128 (gcd 128 with 256) and the
    ciphertext difference 130 (not a multiple of 128),
    [analyze_known_plaintext] raises [IndexError], not the exception of
    code 7, whichever sample is drawn first: [m_inverse_affine(128, 256)]
    fails before it can report the gcd. *)
Theorem analyze_known_plaintext_128_130_raises :
  Z.gcd 128 256 = 128 /\ 130 mod 128 <> 0 /\
  forall fuel : nat,
    solve_m fuel 128 130 256 = Raise IndexError /\
    fst (analyze_known_plaintext fuel 0 0 (mkSamples [128; 0] [130; 0]))
      = Raise IndexError /\
    fst (analyze_known_plaintext fuel 1 0 (mkSamples [128; 0] [130; 0]))
      = Raise IndexError.
Proof.
  split; [reflexivity | split; [discriminate|]].
  intros fuel.
  rewrite (solve_m_more_fuel 0 fuel _ _ _ ltac:(lia)) by discriminate.
  rewrite !(analyze_known_plaintext_more_fuel 0 fuel _ _ _ ltac:(lia))
    by discriminate.
  repeat split.
Qed.

(** ** The effect on the two lists *)

Lemma length_remove_at {A : Type} (l : list A) :
  forall j, (j < length l)%nat -> length (remove_at j l) = (length l - 1)%nat.
Proof.
  induction l as [|a l IH]; intros j Hj; cbn [length] in *; [lia|].
  destruct j as [|j]; cbn [remove_at length]; [lia|].
  rewrite IH by lia. lia.
Qed.

Lemma py_pop_in_range {A : Type} (l : list A) (i : Z) :
  0 <= i < Z.of_nat (length l) ->
  exists a, py_pop l i = Ok (a, remove_at (Z.to_nat i) l).
Proof.
  intros Hi. unfold py_pop; cbv zeta.
  destruct (Z.ltb_spec i 0); [lia|].
  destruct (Z.ltb_spec i 0); [lia|].
  destruct (Z.leb_spec (Z.of_nat (length l)) i); [lia|]. cbn [orb].
  destruct (nth_error l (Z.to_nat i)) as [a|] eqn:E; [eexists; reflexivity|].
  apply nth_error_None in E. lia.
Qed.

(** C8 as stated fails: the call on the two-sample lists leaves both
    lists empty. *)
Lemma analyze_known_plaintext_mutates_inputs :
  snd (analyze_known_plaintext 1 0 0 (mkSamples [5; 2] [22; 13]))
  <> mkSamples [5; 2] [22; 13].
Proof. vm_compute. discriminate. Qed.

(** C8, amended: when a length check fails both lists are left as they
    were; otherwise, whatever the call returns or raises afterwards, each
    list has lost the element at the first drawn index and then the
    element at the second drawn index of what remained, the other elements
    staying as they were, in order. *)
Theorem analyze_known_plaintext_pops_two_samples
    (fuel : nat) (first_eq_index second_eq_index : Z) (s : Samples) :
  (length (known_plaintext s) <> length (known_ciphertext s) \/
   (length (known_plaintext s) < 2)%nat ->
   snd (analyze_known_plaintext fuel first_eq_index second_eq_index s) = s) /\
  (length (known_plaintext s) = length (known_ciphertext s) ->
   (2 <= length (known_plaintext s))%nat ->
   valid_draws (length (known_plaintext s)) first_eq_index second_eq_index ->
   snd (analyze_known_plaintext fuel first_eq_index second_eq_index s) =
   mkSamples
     (remove_at (Z.to_nat second_eq_index)
        (remove_at (Z.to_nat first_eq_index) (known_plaintext s)))
     (remove_at (Z.to_nat second_eq_index)
        (remove_at (Z.to_nat first_eq_index) (known_ciphertext s)))).
Proof.
  destruct s as [pt ct]. cbn [known_plaintext known_ciphertext].
  unfold analyze_known_plaintext. cbn [known_plaintext known_ciphertext].
  split.
  - intros H.
    destruct (Z.eqb_spec (Z.of_nat (length pt)) (Z.of_nat (length ct))) as [E|E];
      cbn [negb]; [|reflexivity].
    destruct (Z.ltb_spec (Z.of_nat (length pt)) 2); [reflexivity | lia].
  - intros Hlen H2 [Hi1 Hi2].
    destruct (Z.eqb_spec (Z.of_nat (length pt)) (Z.of_nat (length ct))) as [E|E];
      cbn [negb]; [|lia].
    destruct (Z.ltb_spec (Z.of_nat (length pt)) 2); [lia|].
    destruct (py_pop_in_range pt first_eq_index ltac:(lia)) as (p1 & Hp1).
    destruct (py_pop_in_range ct first_eq_index ltac:(lia)) as (c1 & Hc1).
    destruct (py_pop_in_range (remove_at (Z.to_nat first_eq_index) pt)
                second_eq_index) as (p2 & Hp2).
    { rewrite length_remove_at by lia. lia. }
    destruct (py_pop_in_range (remove_at (Z.to_nat first_eq_index) ct)
                second_eq_index) as (c2 & Hc2).
    { rewrite length_remove_at by lia. lia. }
    unfold bindM, pop_plaintext, pop_ciphertext, lift, ret.
    cbn [known_plaintext known_ciphertext].
    rewrite Hp1. cbn [known_plaintext known_ciphertext].
    rewrite Hc1. cbn [known_plaintext known_ciphertext].
    rewrite Hp2. cbn [known_plaintext known_ciphertext].
    rewrite Hc2. cbn [known_plaintext known_ciphertext].
    destruct (if p1 <? p2 then _ else _) as [[[fp fc] sp] sc].
    destruct (solve_m fuel (fp - sp) (fc - sc) (MAX_BYTES + 1)) as [m0| |];
      try reflexivity.
    destruct (py_mod (fc - fp * m0) (MAX_BYTES + 1)) as [b0| |]; try reflexivity.
    destruct (m_inverse_affine fuel m0 (MAX_BYTES + 1)) as [x| |]; reflexivity.
Qed.

Lemma analyze_known_plaintext_pops_two_samples_witness :
  valid_draws 3 1 0 /\
  snd (analyze_known_plaintext 1 1 0 (mkSamples [5; 2; 9] [22; 13; 34])) =
  mkSamples [9] [34].
Proof.
  split; [unfold valid_draws; cbn; lia|].
  refine (proj2 (analyze_known_plaintext_pops_two_samples 1 1 0
                   (mkSamples [5; 2; 9] [22; 13; 34])) _ _ _).
  - reflexivity.
  - cbn. lia.
  - unfold valid_draws. cbn. lia.
Defined.

(** * Further properties *)

(** ** Arithmetic modulo 256 *)

Local Notation "a == b" := (eqm 256 a b) (at level 70, no associativity).

Lemma eqm_small (a b : Z) : 0 <= a < 256 -> 0 <= b < 256 -> a == b -> a = b.
Proof.
  unfold eqm. intros Ha Hb H. rewrite !Z.mod_small in H by lia. exact H.
Qed.

Lemma odd_mod_256 (a : Z) : Z.odd (a mod 256) = Z.odd a.
Proof. rewrite <- !Z.negb_even, even_mod_256. reflexivity. Qed.

Lemma eqm_odd (a b : Z) : a == b -> Z.odd a = Z.odd b.
Proof.
  unfold eqm. intros H. rewrite <- (odd_mod_256 a), <- (odd_mod_256 b), H.
  reflexivity.
Qed.

Lemma odd_inverse_check :
  forallb (fun d =>
             implb (Z.odd d)
                   (existsb (fun u => (d * u) mod 256 =? 1) (py_range 1 256)))
          (py_range 0 256) = true.
Proof. vm_compute. reflexivity. Qed.

(** Every odd integer has an inverse modulo 256 among 1, ..., 255. *)
Lemma odd_inverse_256 (a : Z) :
  Z.odd a = true -> exists u, 1 <= u <= 255 /\ a * u == 1.
Proof.
  intros Hodd. pose proof odd_inverse_check as C.
  rewrite forallb_forall in C.
  assert (Hin : In (a mod 256) (py_range 0 256)).
  { apply In_py_range. apply Z.mod_pos_bound. lia. }
  specialize (C _ Hin). rewrite odd_mod_256, Hodd in C. cbn [implb] in C.
  apply existsb_exists in C. destruct C as (u & Hu & E).
  apply In_py_range in Hu. apply Z.eqb_eq in E.
  exists u. split; [lia|].
  unfold eqm. rewrite <- Zmult_mod_idemp_l, E. reflexivity.
Qed.

Lemma eqm_cancel_odd (a x y : Z) :
  Z.odd a = true -> a * x == a * y -> x == y.
Proof.
  intros Hodd H. destruct (odd_inverse_256 a Hodd) as (u & _ & Hu).
  assert (E : u * (a * x) == u * (a * y)) by (rewrite H; reflexivity).
  replace (u * (a * x)) with ((a * u) * x) in E by ring.
  replace (u * (a * y)) with ((a * u) * y) in E by ring.
  rewrite Hu, !Z.mul_1_l in E. exact E.
Qed.

Lemma inverse_odd (m i : Z) : m * i == 1 -> Z.odd i = true /\ Z.odd m = true.
Proof.
  intros H. apply eqm_odd in H. rewrite Z.odd_mul in H. cbn in H.
  apply andb_true_iff in H. tauto.
Qed.

Lemma signature_ok_eqm (c0 c1 i j : Z) :
  signature_ok c0 c1 i j <-> i * (c0 - j) == 255 /\ i * (c1 - j) == 216.
Proof.
  unfold signature_ok, BruteForce.decrypt_affine, py_mod, eqm. cbn [Z.eqb].
  change 0xFF with 255. change 0xD8 with 216.
  change (255 mod 256) with 255. change (216 mod 256) with 216.
  split.
  - intros [H0 H1]. injection H0 as H0. injection H1 as H1. now split.
  - intros [H0 H1]. now rewrite H0, H1.
Qed.

(** The key that decrypts an encrypted JPEG header is unique. *)
Lemma signature_key_unique (m b i i' j' : Z) :
  0 <= b <= 255 -> 1 <= i <= 255 -> m * i == 1 ->
  in_space i' j' ->
  signature_ok (encrypt_byte m b 255) (encrypt_byte m b 216) i' j' ->
  i' = i /\ j' = b.
Proof.
  intros Hb Hi Hinv [Hi' Hj'] Hsig.
  apply signature_ok_eqm in Hsig. destruct Hsig as [H0 H1].
  unfold encrypt_byte in H0, H1. rewrite Zmod_eqm in H0, H1.
  destruct (inverse_odd m i Hinv) as [Hoddi Hoddm].
  assert (E : i' * (m * 255 + b - j') - i' * (m * 216 + b - j') == 255 - 216)
    by (rewrite H0, H1; reflexivity).
  assert (Ei : i' = i).
  { apply eqm_small; [lia | lia |].
    apply (eqm_cancel_odd 39); [reflexivity|].
    replace (i' * (m * 255 + b - j') - i' * (m * 216 + b - j'))
      with (39 * i' * m) in E by ring.
    assert (E' : 39 * i' * m * i == (255 - 216) * i) by (rewrite E; reflexivity).
    replace (39 * i' * m * i) with (39 * i' * (m * i)) in E' by ring.
    rewrite Hinv in E'. rewrite Z.mul_1_r in E'. exact E'. }
  subst i'. split; [reflexivity|].
  assert (Ej : m * (i * (m * 255 + b - j')) == m * 255) by (rewrite H0; reflexivity).
  replace (m * (i * (m * 255 + b - j'))) with ((m * i) * (m * 255 + b - j')) in Ej by ring.
  rewrite Hinv, Z.mul_1_l in Ej.
  symmetry. apply eqm_small; [lia | lia |].
  assert (Ej' : m * 255 + b - (m * 255 + b - j') == m * 255 + b - m * 255)
    by (rewrite Ej; reflexivity).
  replace (m * 255 + b - (m * 255 + b - j')) with j' in Ej' by ring.
  replace (m * 255 + b - m * 255) with b in Ej' by ring.
  symmetry. exact Ej'.
Qed.

Lemma signature_true_key (m b i : Z) :
  m * i == 1 ->
  signature_ok (encrypt_byte m b 255) (encrypt_byte m b 216) i b.
Proof.
  intros Hinv. apply signature_ok_eqm. unfold encrypt_byte.
  rewrite !Zmod_eqm.
  replace (i * (m * 255 + b - b)) with ((m * i) * 255) by ring.
  replace (i * (m * 216 + b - b)) with ((m * i) * 216) by ring.
  rewrite Hinv. split; reflexivity.
Qed.

(** ** The searches recover the key *)

Lemma brute_force_true_key (m b i : Z) (rest : list Z) :
  0 <= b <= 255 -> 1 <= i <= 255 -> (m * i) mod 256 = 1 ->
  BruteForce.brute_force
    (encrypt_byte m b 0xFF :: encrypt_byte m b 0xD8 :: rest)
  = Ok (Some (i, b)).
Proof.
  intros Hb Hi Hinv.
  assert (Hinv' : m * i == 1) by exact Hinv.
  destruct (brute_force_returns (encrypt_byte m b 0xFF) (encrypt_byte m b 0xD8) rest)
    as ([[i' j']|] & H).
  - destruct (brute_force_sound _ _ _ _ _ H) as (Hin & Hsig & _).
    destruct (signature_key_unique m b i i' j' Hb Hi Hinv' Hin Hsig) as [-> ->].
    exact H.
  - exfalso.
    apply (brute_force_exhausted _ _ _ H i b); [unfold in_space; lia|].
    apply signature_true_key. exact Hinv'.
Qed.

Lemma search_space_bounds :
  Forall (fun i' => 1 <= i' <= 255) (py_range 1 (MAX_BYTES + 1)).
Proof.
  apply Forall_forall. intros x Hx. apply In_py_range in Hx.
  change (MAX_BYTES + 1) with 256 in Hx. lia.
Qed.

(** [brute_force] finds a key exactly when the first two bytes differ by
    an odd amount. *)
Lemma signature_needs_odd_difference (c0 c1 i j : Z) :
  signature_ok c0 c1 i j -> Z.odd (c0 - c1) = true.
Proof.
  intros H. apply signature_ok_eqm in H. destruct H as [H0 H1].
  assert (E : i * (c0 - j) - i * (c1 - j) == 255 - 216)
    by (rewrite H0, H1; reflexivity).
  replace (i * (c0 - j) - i * (c1 - j)) with (i * (c0 - c1)) in E by ring.
  apply eqm_odd in E. rewrite Z.odd_mul in E. cbn in E.
  apply andb_true_iff in E. tauto.
Qed.

Lemma odd_difference_has_key (c0 c1 : Z) :
  Z.odd (c0 - c1) = true ->
  exists i j, in_space i j /\ signature_ok c0 c1 i j.
Proof.
  intros Hodd.
  destruct (odd_inverse_256 (c0 - c1) Hodd) as (u & Hu & Hinv).
  set (i := (39 * u) mod 256).
  assert (Hi : i == 39 * u) by (unfold i; apply Zmod_eqm).
  assert (Hoddi : Z.odd i = true).
  { rewrite (eqm_odd _ _ Hi), Z.odd_mul.
    destruct (inverse_odd _ _ Hinv) as [-> _]. reflexivity. }
  destruct (odd_inverse_256 i Hoddi) as (v & Hv & Hinvi).
  set (j := (c0 - 255 * v) mod 256).
  assert (Hj : j == c0 - 255 * v) by (unfold j; apply Zmod_eqm).
  exists i, j. split.
  - unfold in_space.
    pose proof (Z.mod_pos_bound (39 * u) 256 ltac:(lia)).
    pose proof (Z.mod_pos_bound (c0 - 255 * v) 256 ltac:(lia)).
    assert (i <> 0) by (intros E; rewrite E in Hoddi; discriminate).
    unfold i, j in *. lia.
  - apply signature_ok_eqm.
    assert (E0 : i * (c0 - j) == 255).
    { rewrite Hj. replace (i * (c0 - (c0 - 255 * v))) with ((i * v) * 255) by ring.
      rewrite Hinvi. reflexivity. }
    split; [exact E0|].
    replace (i * (c1 - j)) with (i * (c0 - j) - i * (c0 - c1)) by ring.
    rewrite E0, Hi.
    replace (39 * u * (c0 - c1)) with (39 * ((c0 - c1) * u)) by ring.
    rewrite Hinv. reflexivity.
Qed.

Lemma brute_force_none_iff (c0 c1 : Z) (rest : list Z) :
  BruteForce.brute_force (c0 :: c1 :: rest) = Ok None <->
  Z.even (c0 - c1) = true.
Proof.
  split.
  - intros H. rewrite <- Z.negb_odd.
    destruct (Z.odd (c0 - c1)) eqn:Hodd; [|reflexivity].
    destruct (odd_difference_has_key c0 c1 Hodd) as (i & j & Hin & Hsig).
    exfalso. exact (brute_force_exhausted _ _ _ H i j Hin Hsig).
  - intros Heven.
    destruct (brute_force_returns c0 c1 rest) as ([[i j]|] & H); [|exact H].
    destruct (brute_force_sound _ _ _ _ _ H) as (_ & Hsig & _).
    apply signature_needs_odd_difference in Hsig.
    rewrite <- Z.negb_even, Heven in Hsig. discriminate.
Qed.

(** ** Short ciphertexts *)

Lemma for_j_one_byte (c0 i : Z) (js : list Z) :
  BruteForce.for_j [c0] i js =
  if existsb (fun j => (i * (c0 - j)) mod 256 =? 255) js
  then Raise IndexError else Ok None.
Proof.
  induction js as [|j js IH]; [reflexivity|].
  cbn [BruteForce.for_j existsb].
  unfold BruteForce.header_test.
  change (py_getitem [c0] 0) with (Ok c0).
  change (py_getitem [c0] 1) with (@Raise Z IndexError).
  cbn [bind]. rewrite decrypt_affine_256. cbn [bind].
  change 0xFF with 255.
  destruct ((i * (c0 - j)) mod 256 =? 255); cbn [bind orb]; [reflexivity | exact IH].
Qed.

Lemma for_j_one_byte_raises (c0 : Z) :
  BruteForce.for_j [c0] 1 (py_range 0 (MAX_BYTES + 1)) = Raise IndexError.
Proof.
  rewrite for_j_one_byte.
  replace (existsb _ _) with true; [reflexivity|].
  symmetry. apply existsb_exists. exists ((c0 - 255) mod 256). split.
  - apply In_py_range. change (MAX_BYTES + 1) with 256.
    apply Z.mod_pos_bound. lia.
  - apply Z.eqb_eq. change (eqm 256 (1 * (c0 - (c0 - 255) mod 256)) 255).
    rewrite Zmod_eqm. replace (1 * (c0 - (c0 - 255))) with 255 by ring.
    reflexivity.
Qed.

Lemma brute_force_short (ciphertext : list Z) :
  (length ciphertext < 2)%nat ->
  BruteForce.brute_force ciphertext = Raise IndexError.
Proof.
  intros H. destruct ciphertext as [|c0 [|c1 rest]]; [| |cbn in H; lia].
  - vm_compute. reflexivity.
  - unfold BruteForce.brute_force. cbn [firstn].
    change (py_range 1 (MAX_BYTES + 1)) with (1 :: py_range 2 (MAX_BYTES + 1)).
    cbn [BruteForce.for_i]. rewrite for_j_one_byte_raises. reflexivity.
Qed.

(** ** [exhaustive_key] equals [brute_force] *)

Lemma for_j_even (c0 c1 : Z) (rest : list Z) (i : Z) (js : list Z) :
  Z.even i = true ->
  BruteForce.for_j (firstn 2 (c0 :: c1 :: rest)) i js = Ok None.
Proof.
  intros Heven. induction js as [|j js IH]; [reflexivity|].
  cbn [BruteForce.for_j]. rewrite header_test_two.
  assert (E : ((i * (c0 - j)) mod 256 =? 255) = false).
  { apply Z.eqb_neq. intros F. apply (f_equal Z.even) in F.
    rewrite even_mod_256, Z.even_mul, Heven in F. discriminate. }
  rewrite E. cbn [andb bind]. exact IH.
Qed.

Lemma exhaustive_for_i_two_bytes (fuel : nat) (c0 c1 : Z) (rest ms : list Z) :
  (gcd_fuel <= fuel)%nat ->
  Forall (fun i' => 1 <= i' <= 255) ms ->
  ExhaustiveKey.for_i fuel (firstn 2 (c0 :: c1 :: rest)) ms =
  BruteForce.for_i (firstn 2 (c0 :: c1 :: rest)) ms.
Proof.
  intros Hfuel Hms. induction Hms as [|i0 ms Hi0 Hms IH]; [reflexivity|].
  cbn [ExhaustiveKey.for_i BruteForce.for_i].
  destruct (gcd_256 fuel i0 Hfuel Hi0) as (g & -> & _ & Hg). cbn [bind].
  change (ExhaustiveKey.for_j (firstn 2 (c0 :: c1 :: rest)) i0
            (py_range 0 (MAX_BYTES + 1)))
    with (BruteForce.for_j (firstn 2 (c0 :: c1 :: rest)) i0
            (py_range 0 (MAX_BYTES + 1))).
  destruct (Z.eqb_spec g 1) as [E|E]; cbn [negb].
  - destruct (BruteForce.for_j _ i0 _) as [[key|]| |]; cbn [bind];
      try reflexivity. exact IH.
  - rewrite for_j_even; [cbn [bind]; exact IH|].
    rewrite <- Z.negb_odd. destruct (Z.odd i0); [|reflexivity].
    exfalso. apply E, Hg. reflexivity.
Qed.

Lemma exhaustive_key_eq_brute_force (fuel : nat) (ciphertext : list Z) :
  (gcd_fuel <= fuel)%nat ->
  ExhaustiveKey.exhaustive_key fuel ciphertext =
  BruteForce.brute_force ciphertext.
Proof.
  intros Hfuel. destruct ciphertext as [|c0 [|c1 rest]].
  - unfold ExhaustiveKey.exhaustive_key, BruteForce.brute_force. cbn [firstn].
    change (py_range 1 (MAX_BYTES + 1)) with (1 :: py_range 2 (MAX_BYTES + 1)).
    cbn [ExhaustiveKey.for_i BruteForce.for_i].
    destruct (gcd_256 fuel 1 Hfuel ltac:(lia)) as (g & -> & _ & Hg).
    rewrite (Hg eq_refl). reflexivity.
  - unfold ExhaustiveKey.exhaustive_key, BruteForce.brute_force. cbn [firstn].
    change (py_range 1 (MAX_BYTES + 1)) with (1 :: py_range 2 (MAX_BYTES + 1)).
    cbn [ExhaustiveKey.for_i BruteForce.for_i].
    destruct (gcd_256 fuel 1 Hfuel ltac:(lia)) as (g & -> & _ & Hg).
    rewrite (Hg eq_refl). cbn [bind Z.eqb Pos.eqb negb].
    change (ExhaustiveKey.for_j [c0] 1 (py_range 0 (MAX_BYTES + 1)))
      with (BruteForce.for_j [c0] 1 (py_range 0 (MAX_BYTES + 1))).
    rewrite for_j_one_byte_raises. reflexivity.
  - apply exhaustive_for_i_two_bytes; [exact Hfuel | exact search_space_bounds].
Qed.

(** ** [gcd] of exhaustive_key_affine.py in general *)

Lemma gcd_ordered (k : nat) :
  forall (fuel : nat) (a b : Z),
    0 <= a <= b -> (Z.to_nat a <= k)%nat -> (2 * k + 1 <= fuel)%nat ->
    ExhaustiveKey.gcd fuel a b = Ok (Z.gcd a b).
Proof.
  induction k as [|k IH]; intros fuel a b Hab Hk Hfuel.
  - assert (a = 0) by lia. subst a.
    destruct fuel as [|fuel]; [lia|]. cbn [ExhaustiveKey.gcd].
    destruct (Z.gtb_spec 0 b); [lia|]. cbn [Z.eqb].
    rewrite Z.gcd_0_l, Z.abs_eq by lia. reflexivity.
  - destruct fuel as [|[|fuel]]; try lia. cbn [ExhaustiveKey.gcd].
    destruct (Z.gtb_spec a b); [lia|].
    destruct (Z.eqb_spec a 0) as [->|Ha].
    + rewrite Z.gcd_0_l, Z.abs_eq by lia. reflexivity.
    + unfold py_mod. destruct (Z.eqb_spec a 0); [contradiction|]. cbn [bind].
      pose proof (Z.mod_pos_bound b a ltac:(lia)) as Hr.
      destruct (Z.gtb_spec a (b mod a)); [|lia].
      rewrite IH by lia. rewrite Z.gcd_mod by exact Ha. reflexivity.
Qed.

Lemma gcd_stuck (fuel : nat) :
  forall a r, a < 0 -> a < r <= 0 -> ExhaustiveKey.gcd fuel a r = OutOfFuel.
Proof.
  induction fuel as [|fuel IH]; intros a r Ha Hr; [reflexivity|].
  cbn [ExhaustiveKey.gcd].
  destruct (Z.gtb_spec a r); [lia|].
  destruct (Z.eqb_spec a 0); [lia|].
  unfold py_mod. destruct (Z.eqb_spec a 0); [lia|]. cbn [bind].
  rewrite <- (Z.mod_unique_neg r a 0 r) by lia.
  apply IH; assumption.
Qed.

Lemma gcd_negative_le (fuel : nat) (a b : Z) :
  a < 0 -> a <= b -> ExhaustiveKey.gcd fuel a b = OutOfFuel.
Proof.
  intros Ha Hab. destruct fuel as [|fuel]; [reflexivity|].
  cbn [ExhaustiveKey.gcd].
  destruct (Z.gtb_spec a b); [lia|].
  destruct (Z.eqb_spec a 0); [lia|].
  unfold py_mod. destruct (Z.eqb_spec a 0); [lia|]. cbn [bind].
  apply gcd_stuck; [exact Ha|]. apply Z.mod_neg_bound. exact Ha.
Qed.

(** ** [modulo_formula] *)

Lemma modulo_formula_comm (p q : Z) : modulo_formula p q = modulo_formula q p.
Proof.
  unfold modulo_formula.
  destruct (Z.gtb_spec p q), (Z.gtb_spec q p); try reflexivity; try lia.
  assert (p = q) by lia. subst. reflexivity.
Qed.

Lemma modulo_formula_min_max (p q : Z) :
  modulo_formula p q = modulo_formula (Z.min p q) (Z.max p q).
Proof.
  destruct (Z.le_gt_cases p q).
  - rewrite Z.min_l, Z.max_r by lia. reflexivity.
  - rewrite Z.min_r, Z.max_l by lia. apply modulo_formula_comm.
Qed.

Lemma modulo_formula_min_max_division (p q : Z) :
  (Z.min p q = 0 -> modulo_formula p q = Raise ZeroDivisionError) /\
  (Z.min p q <> 0 ->
   exists s, modulo_formula p q = Ok s /\
     ModuloStep.p s = Z.min p q /\ ModuloStep.q s = Z.max p q /\
     ModuloStep.q s = ModuloStep.k s * ModuloStep.p s + ModuloStep.r s /\
     Z.abs (ModuloStep.r s) < Z.abs (ModuloStep.p s) /\
     (0 < Z.min p q -> 0 <= ModuloStep.r s)).
Proof.
  rewrite modulo_formula_min_max.
  pose proof (Z.le_min_l p q). pose proof (Z.le_min_r p q).
  pose proof (Z.le_max_l p q). pose proof (Z.le_max_r p q).
  set (a := Z.min p q) in *. set (b := Z.max p q) in *.
  unfold modulo_formula, py_floordiv, py_mod.
  destruct (Z.gtb_spec a b); [lia|].
  split.
  - intros ->. reflexivity.
  - intros Ha. destruct (Z.eqb_spec a 0); [contradiction|]. cbn [bind].
    eexists. split; [reflexivity|]. cbn.
    pose proof (Z.div_mod b a Ha).
    repeat split; try lia.
    + destruct (Z.lt_gt_cases a 0) as [[Hn|Hp] _]; [exact Ha| |].
      * pose proof (Z.mod_neg_bound b a Hn). lia.
      * pose proof (Z.mod_pos_bound b a Hp). lia.
    + intros Hp. pose proof (Z.mod_pos_bound b a Hp). lia.
Qed.

(** ** The chain of [fill_gcd_affine] in general *)

Lemma steps_from_euclid_chain (s : ModuloStep.t) (suf : list ModuloStep.t) :
  steps_from s suf -> step_ok s -> euclid_chain (s :: suf).
Proof.
  induction 1 as [s Hr | s s1 suf Hr Hmf Hsteps IH]; intros Hok.
  - cbn. tauto.
  - destruct (step_ok_next s s1 Hok Hr Hmf) as (Hok1 & Hp1 & Hq1).
    cbn [euclid_chain]. split; [exact Hok|]. split; [tauto|].
    exact (IH Hok1).
Qed.

Lemma steps_from_length (s : ModuloStep.t) (suf : list ModuloStep.t) :
  steps_from s suf -> step_ok s ->
  (length suf <= Z.to_nat (ModuloStep.r s))%nat.
Proof.
  induction 1 as [s Hr | s s1 suf Hr Hmf Hsteps IH]; intros Hok.
  - cbn. lia.
  - destruct (step_ok_next s s1 Hok Hr Hmf) as (Hok1 & Hp1 & Hq1).
    specialize (IH Hok1). cbn [length].
    destruct Hok as (_ & _ & _ & Hrs), Hok1 as (_ & _ & _ & Hr1). lia.
Qed.

(** What [fill_gcd_affine] has built when it raises the exception of
    code 3. *)
Lemma fill_gcd_affine_dump (fuel : nat) (m n : Z) (dump : list ModuloStep.t) :
  0 < m -> fill_gcd_affine fuel m n = Raise (AffineException 3 (Some dump)) ->
  m < n /\
  exists s suf pen,
    dump = s :: suf /\ ModuloStep.p s = m /\ ModuloStep.q s = n /\
    step_ok s /\ steps_from s suf /\
    before_last dump = Some pen /\ ModuloStep.r pen <> 1.
Proof.
  intros Hm H. unfold fill_gcd_affine in H.
  destruct (Z.leb_spec n m) as [|Hlt]; [discriminate|].
  split; [exact Hlt|].
  destruct (modulo_formula m n) as [s| |] eqn:F; cbn [bind] in H; try discriminate.
  2:{ unfold modulo_formula, py_floordiv, py_mod in F.
      destruct (m >? n); destruct (_ =? 0) in F; cbn [bind] in F;
        try discriminate; injection F as <-; injection H as H; discriminate. }
  destruct (modulo_formula_step_ok m n s Hm ltac:(lia) F) as (Hok & Hp & Hq).
  destruct (fill_gcd_affine_loop fuel [s]) as [c| |] eqn:L; cbn [bind] in H;
    try discriminate.
  - apply (fill_gcd_affine_loop_steps fuel []) in L.
    destruct L as (suf & -> & Hsteps).
    cbn [app] in H. rewrite py_getitem_before_last in H.
    destruct (before_last (s :: suf)) as [pen|] eqn:B; cbn [bind] in H;
      try discriminate.
    destruct (Z.eqb_spec (ModuloStep.r pen) 1) as [E|E]; cbn [negb] in H;
      try discriminate.
    injection H as <-. exists s, suf, pen.
    repeat (split; [first [assumption | reflexivity]|]). assumption.
  - exfalso. clear -L Hok.
    assert (G : forall fuel pre s0, step_ok s0 ->
                forall e, fill_gcd_affine_loop fuel (pre ++ [s0]) <> Raise e).
    { clear. induction fuel as [|fuel IH]; intros pre s0 Hok e;
        cbn [fill_gcd_affine_loop]; rewrite py_getitem_last; cbn [bind];
        destruct (negb (ModuloStep.r s0 =? 0)) eqn:E; try discriminate.
      apply negb_true_iff, Z.eqb_neq in E.
      destruct (step_ok_next_exists s0 Hok E) as (s' & F). rewrite F. cbn [bind].
      destruct (step_ok_next s0 s' Hok E F) as (Hok' & _).
      apply (IH (pre ++ [s0]) s' Hok'). }
    exact (G fuel [] s Hok _ L).
Qed.

(** ** [m_inverse_affine] in general *)

Lemma fill_gcd_affine_loop_stuck (fuel : nat) :
  forall pre s,
    ModuloStep.p s < 0 -> ModuloStep.p s < ModuloStep.r s < 0 ->
    fill_gcd_affine_loop fuel (pre ++ [s]) = OutOfFuel.
Proof.
  induction fuel as [|fuel IH]; intros pre s Hp Hr;
    cbn [fill_gcd_affine_loop]; rewrite py_getitem_last; cbn [bind];
    destruct (Z.eqb_spec (ModuloStep.r s) 0); try lia; cbn [negb];
    [reflexivity|].
  unfold modulo_formula, py_floordiv, py_mod.
  destruct (Z.gtb_spec (ModuloStep.r s) (ModuloStep.p s)); [|lia].
  destruct (Z.eqb_spec (ModuloStep.p s) 0); [lia|]. cbn [bind].
  apply IH; cbn [ModuloStep.p ModuloStep.r]; [exact Hp|].
  rewrite <- (Z.mod_unique_neg (ModuloStep.r s) (ModuloStep.p s) 0 (ModuloStep.r s))
    by lia.
  exact Hr.
Qed.

Lemma fill_gcd_affine_nonpositive (fuel : nat) (m n : Z) (chain : list ModuloStep.t) :
  m <= 0 -> fill_gcd_affine fuel m n <> Ok chain.
Proof.
  intros Hm H. unfold fill_gcd_affine in H.
  destruct (Z.leb_spec n m) as [|Hlt]; [discriminate|].
  unfold modulo_formula, py_floordiv, py_mod in H.
  destruct (Z.gtb_spec m n); [lia|].
  destruct (Z.eqb_spec m 0) as [|Hm0]; [discriminate|]. cbn [bind] in H.
  set (s := ModuloStep.mk m n (n / m) (n mod m)) in H.
  pose proof (Z.mod_neg_bound n m ltac:(lia)) as Hr.
  destruct (Z.eq_dec (n mod m) 0) as [E|E].
  - assert (L : fill_gcd_affine_loop fuel [s] = Ok [s]).
    { destruct fuel; cbn [fill_gcd_affine_loop];
        change (py_getitem [s] (-1)) with (Ok s); cbn [bind];
        unfold s; cbn [ModuloStep.r]; rewrite E; reflexivity. }
    rewrite L in H. discriminate.
  - pose proof (fill_gcd_affine_loop_stuck fuel [] s) as L. cbn [app] in L.
    rewrite L in H; [discriminate | cbn; lia | cbn; lia].
Qed.

(** Whatever [m_inverse_affine] returns is the inverse, and it returns
    only on coprime [1 < m < n]. *)
Lemma m_inverse_affine_sound (fuel : nat) (m n x : Z) :
  m_inverse_affine fuel m n = Ok x ->
  1 < m < n /\ Z.gcd m n = 1 /\ 0 < x < n /\ (m * x) mod n = 1.
Proof.
  intros H.
  assert (Hfill : exists chain, fill_gcd_affine fuel m n = Ok chain).
  { unfold m_inverse_affine in H. destruct (n <=? m); [discriminate|].
    destruct (fill_gcd_affine fuel m n) as [chain| |]; try discriminate.
    eexists. reflexivity. }
  destruct Hfill as (chain & Hfill).
  assert (Hm : 0 < m).
  { destruct (Z.lt_ge_cases 0 m) as [|Hle]; [assumption|].
    exfalso. exact (fill_gcd_affine_nonpositive fuel m n chain ltac:(lia) Hfill). }
  destruct (fill_gcd_affine_chain fuel m n chain Hm Hfill)
    as (Hlt & s & suf & pen & -> & Hp & Hq & Hok & Hsteps & Hpen & H1).
  destruct (m_inverse_affine_spec fuel m n (s :: suf) Hm Hfill)
    as (b & _ & _ & _ & Hid & Hx & Hres).
  rewrite Hres in H. injection H as H.
  assert (Hm1 : m <> 1).
  { intros ->. destruct Hok as (_ & _ & _ & Hr). rewrite Hp in Hr.
    inversion Hsteps as [? Hr0 | ? ? ? Hnz]; subst; [discriminate | lia]. }
  assert (Hinv : (m * x) mod n = 1).
  { subst x. destruct (Z.ltb_spec (Bezout.x b) 0).
    - replace (m * (n + Bezout.x b)) with (1 + (m - Bezout.y b) * n) by lia.
      rewrite Z.mod_add by lia. apply Z.mod_small. lia.
    - replace (m * Bezout.x b) with (1 + (- Bezout.y b) * n) by lia.
      rewrite Z.mod_add by lia. apply Z.mod_small. lia. }
  split; [lia|]. split.
  - apply Z.bezout_1_gcd. exists (Bezout.x b), (Bezout.y b). lia.
  - split; [|exact Hinv].
    assert (x <> 0).
    { intros ->. rewrite Z.mul_0_r, Z.mod_0_l in Hinv by lia. discriminate. }
    subst x. destruct (Z.ltb_spec (Bezout.x b) 0); lia.
Qed.

Lemma m_inverse_affine_divides (fuel : nat) (m n : Z) :
  0 < m < n -> n mod m = 0 ->
  fill_gcd_affine fuel m n = Raise IndexError /\
  m_inverse_affine fuel m n = Raise IndexError.
Proof.
  intros Hm Hdiv.
  assert (F : fill_gcd_affine fuel m n = Raise IndexError).
  { unfold fill_gcd_affine. destruct (Z.leb_spec n m); [lia|].
    rewrite modulo_formula_ordered by lia. cbn [bind]. rewrite Hdiv.
    destruct fuel; reflexivity. }
  split; [exact F|].
  unfold m_inverse_affine. destruct (Z.leb_spec n m); [lia|].
  rewrite F. reflexivity.
Qed.

Lemma inverse_unique (n m x z : Z) :
  0 <= m < n -> 0 <= z < n ->
  (m * x) mod n = 1 -> (x * z) mod n = 1 -> z = m.
Proof.
  intros Hm Hz Hmx Hxz.
  assert (Hn : 1 < n).
  { destruct (Z.eq_dec n 1) as [->|]; [|lia].
    rewrite Z.mod_1_r in Hmx. discriminate. }
  assert (E1 : eqm n (m * x) 1) by (unfold eqm; rewrite Hmx, Z.mod_small; lia).
  assert (E2 : eqm n (x * z) 1) by (unfold eqm; rewrite Hxz, Z.mod_small; lia).
  assert (E : eqm n z m).
  { transitivity ((m * x) * z); [rewrite E1; now rewrite Z.mul_1_l|].
    replace (m * x * z) with (m * (x * z)) by ring.
    rewrite E2. now rewrite Z.mul_1_r. }
  unfold eqm in E. rewrite !Z.mod_small in E by lia. exact E.
Qed.

(** ** The solver of [analyze_known_plaintext] *)

Lemma m_inverse_affine_code_3 (fuel : nat) (p n : Z) (dump : option (list ModuloStep.t)) :
  m_inverse_affine fuel p n = Raise (AffineException 3 dump) ->
  fill_gcd_affine fuel p n = Raise (AffineException 3 dump).
Proof.
  unfold m_inverse_affine. destruct (n <=? p); [discriminate|].
  destruct (fill_gcd_affine fuel p n) as [chain| |]; cbn [bind];
    [|intros H; injection H as ->; reflexivity|discriminate].
  destruct (backtrack chain); discriminate.
Qed.

(** Whatever [solve_m] returns for a positive difference [p] solves
    [c = m * p (mod n)]. *)
Lemma solve_m_sound (fuel : nat) (p c n m : Z) :
  0 < p -> solve_m fuel p c n = Ok m ->
  0 <= m < n /\ (m * p) mod n = c mod n.
Proof.
  intros Hp H. unfold solve_m in H.
  destruct (m_inverse_affine fuel p n) as [x|[code dump| | | |]|] eqn:Hinv;
    try discriminate.
  - (* situation 1 *)
    destruct (m_inverse_affine_sound fuel p n x Hinv) as (Hpn & _ & _ & Hx).
    unfold py_mod in H. destruct (Z.eqb_spec n 0); [lia|]. injection H as <-.
    split; [apply Z.mod_pos_bound; lia|].
    assert (E1 : eqm n (p * x) 1) by (unfold eqm; rewrite Hx, Z.mod_small; lia).
    change (eqm n ((c * x) mod n * p) c).
    rewrite Zmod_eqm. replace (c * x * p) with (c * (p * x)) by ring.
    rewrite E1. now rewrite Z.mul_1_r.
  - (* situation 2 *)
    destruct (Z.eqb_spec code 3) as [->|]; [|discriminate].
    destruct dump as [dump|]; [|discriminate].
    apply m_inverse_affine_code_3 in Hinv.
    destruct (fill_gcd_affine_dump fuel p n dump Hp Hinv)
      as (Hpn & s & suf & pen & -> & Hsp & Hsq & Hok & Hsteps & _ & _).
    rewrite py_getitem_last_cons in H. cbn [bind] in H.
    destruct (steps_from_gcd s suf Hsteps Hok) as (Hg & _ & _).
    rewrite Hsp, Hsq in Hg. rewrite Hg in H.
    set (g := Z.gcd p n) in *.
    assert (Hgpos : 0 < g).
    { pose proof (Z.gcd_nonneg p n).
      assert (g <> 0) by (intros E; apply Z.gcd_eq_0_l in E; lia).
      unfold g. lia. }
    unfold py_mod at 1 in H. destruct (Z.eqb_spec g 0); [lia|]. cbn [bind] in H.
    destruct (Z.eqb_spec (c mod g) 0) as [Hc|]; [|discriminate].
    unfold py_floordiv in H. destruct (Z.eqb_spec g 0); [lia|]. cbn [bind] in H.
    destruct (m_inverse_affine fuel (p / g) (n / g)) as [x| |] eqn:Hinv';
      cbn [bind] in H; try discriminate.
    destruct (m_inverse_affine_sound fuel _ _ x Hinv') as (Hpn' & _ & _ & Hx).
    unfold py_mod in H. destruct (Z.eqb_spec (n / g) 0); [lia|]. injection H as <-.
    destruct (Z.gcd_divide_l p n) as [p' Ep]. fold g in Ep.
    destruct (Z.gcd_divide_r p n) as [n' En]. fold g in En.
    apply Z.mod_divide in Hc; [|lia]. destruct Hc as [c' Ec].
    rewrite Ep, En, Ec in *. rewrite !Z.div_mul in * by lia.
    pose proof (Z.mod_pos_bound (c' * x) n' ltac:(lia)) as Hm.
    split; [nia|].
    pose proof (Z.div_mod (p' * x) n' ltac:(lia)) as E1. rewrite Hx in E1.
    pose proof (Z.div_mod (c' * x) n' ltac:(lia)) as E2.
    set (u := p' * x / n') in *. set (t := c' * x / n') in *.
    set (m0 := (c' * x) mod n') in *.
    replace (m0 * (p' * g)) with (c' * g + (c' * u - t * p') * (n' * g)).
    + apply Z.mod_add. lia.
    + replace (m0) with (c' * x - n' * t) by lia.
      replace ((c' * x - n' * t) * (p' * g))
        with (c' * g * (p' * x) - n' * t * p' * g) by ring.
      rewrite E1. ring.
Qed.

(** ** [analyze_known_plaintext] on the samples it draws *)

Lemma py_pop_nth {A : Type} (l : list A) (i : Z) (d : A) :
  0 <= i < Z.of_nat (length l) ->
  py_pop l i = Ok (nth (Z.to_nat i) l d, remove_at (Z.to_nat i) l).
Proof.
  intros Hi. unfold py_pop; cbv zeta.
  destruct (Z.ltb_spec i 0); [lia|].
  destruct (Z.ltb_spec i 0); [lia|].
  destruct (Z.leb_spec (Z.of_nat (length l)) i); [lia|]. cbn [orb].
  destruct (nth_error l (Z.to_nat i)) as [a|] eqn:E.
  - rewrite (nth_error_nth l (Z.to_nat i) d E). reflexivity.
  - apply nth_error_None in E. lia.
Qed.

Lemma analyze_known_plaintext_drawn (fuel : nat) (i1 i2 : Z) (pt ct : list Z) :
  length pt = length ct -> (2 <= length pt)%nat ->
  valid_draws (length pt) i1 i2 ->
  fst (analyze_known_plaintext fuel i1 i2 (mkSamples pt ct)) =
  key_from_samples fuel
    (nth (Z.to_nat i1) pt 0) (nth (Z.to_nat i1) ct 0)
    (nth (Z.to_nat i2) (remove_at (Z.to_nat i1) pt) 0)
    (nth (Z.to_nat i2) (remove_at (Z.to_nat i1) ct) 0).
Proof.
  intros Hlen H2 [Hi1 Hi2].
  unfold analyze_known_plaintext. cbn [known_plaintext known_ciphertext].
  destruct (Z.eqb_spec (Z.of_nat (length pt)) (Z.of_nat (length ct))) as [E|E];
    cbn [negb]; [|lia].
  destruct (Z.ltb_spec (Z.of_nat (length pt)) 2); [lia|].
  unfold bindM, pop_plaintext, pop_ciphertext, lift, ret.
  cbn [known_plaintext known_ciphertext].
  rewrite (py_pop_nth pt i1 0) by lia. cbn [known_plaintext known_ciphertext].
  rewrite (py_pop_nth ct i1 0) by lia. cbn [known_plaintext known_ciphertext].
  rewrite (py_pop_nth (remove_at (Z.to_nat i1) pt) i2 0)
    by (rewrite length_remove_at by lia; lia).
  cbn [known_plaintext known_ciphertext].
  rewrite (py_pop_nth (remove_at (Z.to_nat i1) ct) i2 0)
    by (rewrite length_remove_at by lia; lia).
  cbn [known_plaintext known_ciphertext].
  unfold key_from_samples.
  destruct (if _ <? _ then _ else _) as [[[fp fc] sp] sc].
  destruct (solve_m fuel (fp - sp) (fc - sc) (MAX_BYTES + 1)) as [m0| |];
    cbn [bind fst]; try reflexivity.
  destruct (py_mod (fc - fp * m0) (MAX_BYTES + 1)) as [b0| |];
    cbn [bind fst]; try reflexivity.
  destruct (m_inverse_affine fuel m0 (MAX_BYTES + 1)) as [x| |]; reflexivity.
Qed.

(** The key returned explains both samples. *)
Lemma key_from_samples_sound (fuel : nat) (p1 c1 p2 c2 : Z)
    (key : AffineParameters.t) :
  key_from_samples fuel p1 c1 p2 c2 = Ok key ->
  let m := AffineParameters.m key in
  let b := AffineParameters.b key in
  let m_inverse := AffineParameters.m_inverse key in
  1 < m < 256 /\ 0 <= b < 256 /\ 0 < m_inverse < 256 /\
  (m * m_inverse) mod 256 = 1 /\
  (m * p1 + b) mod 256 = c1 mod 256 /\
  (m * p2 + b) mod 256 = c2 mod 256.
Proof.
  unfold key_from_samples. change (MAX_BYTES + 1) with 256.
  assert (G : forall fp fc sp sc,
             sp <= fp ->
             (m0 <- solve_m fuel (fp - sp) (fc - sc) 256 ;;
              b0 <- py_mod (fc - fp * m0) 256 ;;
              x <- m_inverse_affine fuel m0 256 ;;
              Ok (AffineParameters.mk m0 x b0)) = Ok key ->
             1 < AffineParameters.m key < 256 /\
             0 <= AffineParameters.b key < 256 /\
             0 < AffineParameters.m_inverse key < 256 /\
             (AffineParameters.m key * AffineParameters.m_inverse key) mod 256 = 1 /\
             (AffineParameters.m key * fp + AffineParameters.b key) mod 256
               = fc mod 256 /\
             (AffineParameters.m key * sp + AffineParameters.b key) mod 256
               = sc mod 256).
  { intros fp fc sp sc Hle H.
    destruct (solve_m fuel (fp - sp) (fc - sc) 256) as [m0| |] eqn:S;
      cbn [bind] in H; try discriminate.
    change (py_mod (fc - fp * m0) 256) with (Ok ((fc - fp * m0) mod 256)) in H.
    cbn [bind] in H.
    destruct (m_inverse_affine fuel m0 256) as [x| |] eqn:I;
      cbn [bind] in H; try discriminate.
    injection H as <-. cbn [AffineParameters.m AffineParameters.b
                              AffineParameters.m_inverse].
    destruct (m_inverse_affine_sound fuel m0 256 x I) as (Hm0 & _ & Hx & Hinv).
    assert (Hp : 0 < fp - sp).
    { destruct (Z.eq_dec (fp - sp) 0) as [E|]; [|lia].
      rewrite E, solve_m_equal_plaintexts in S. discriminate. }
    destruct (solve_m_sound fuel _ _ _ _ Hp S) as (_ & Hsol).
    split; [exact Hm0|].
    split; [apply Z.mod_pos_bound; lia|].
    split; [exact Hx|]. split; [exact Hinv|].
    assert (Eb : eqm 256 ((fc - fp * m0) mod 256) (fc - fp * m0))
      by apply Zmod_eqm.
    split.
    - change (eqm 256 (m0 * fp + (fc - fp * m0) mod 256) fc).
      rewrite Eb. replace (m0 * fp + (fc - fp * m0)) with fc by ring. reflexivity.
    - change (eqm 256 (m0 * sp + (fc - fp * m0) mod 256) sc).
      rewrite Eb.
      replace (m0 * sp + (fc - fp * m0)) with (fc - m0 * (fp - sp)) by ring.
      assert (Es : eqm 256 (m0 * (fp - sp)) (fc - sc)) by exact Hsol.
      rewrite Es. replace (fc - (fc - sc)) with sc by ring. reflexivity. }
  destruct (Z.ltb_spec p1 p2) as [Hlt|Hge]; intros H.
  - destruct (G p2 c2 p1 c1 ltac:(lia) H) as (A & B & C & D & E & F).
    cbv zeta. tauto.
  - destruct (G p1 c1 p2 c2 ltac:(lia) H) as (A & B & C & D & E & F).
    cbv zeta. tauto.
Qed.

Lemma odd_coprime_256 (d : Z) : Z.odd d = true -> Z.gcd d 256 = 1.
Proof.
  intros Hodd. destruct (odd_inverse_256 d Hodd) as (u & _ & Hu).
  apply Z.bezout_1_gcd. exists u, (- ((d * u) / 256)).
  pose proof (Z.div_mod (d * u) 256 ltac:(lia)) as E.
  unfold eqm in Hu. change (1 mod 256) with 1 in Hu. lia.
Qed.

(** The true key is recovered from two samples of it whose plaintext
    bytes differ by an odd amount other than 1. *)
Lemma key_from_samples_true_key (fuel : nat) (m b p1 p2 : Z) :
  (255 <= fuel)%nat ->
  1 < m <= 255 -> Z.odd m = true -> is_byte b -> is_byte p1 -> is_byte p2 ->
  Z.odd (p1 - p2) = true -> Z.abs (p1 - p2) <> 1 ->
  exists m_inverse,
    key_from_samples fuel p1 (encrypt_byte m b p1) p2 (encrypt_byte m b p2)
      = Ok (AffineParameters.mk m m_inverse b) /\
    0 < m_inverse < 256 /\ (m * m_inverse) mod 256 = 1.
Proof.
  intros Hfuel Hm Hoddm Hb Hp1 Hp2 Hodd Hne. unfold is_byte in *.
  destruct (m_inverse_affine_256 fuel m Hm (odd_coprime_256 m Hoddm) ltac:(lia))
    as (x & Hx & _ & _).
  destruct (m_inverse_affine_sound fuel m 256 x Hx) as (_ & _ & Hxr & Hinv).
  exists x. split; [|split; assumption].
  unfold key_from_samples. change (MAX_BYTES + 1) with 256.
  assert (G : forall fp sp,
             0 <= sp <= 255 -> 0 <= fp <= 255 -> sp <= fp ->
             Z.odd (fp - sp) = true -> fp - sp <> 1 ->
             (m0 <- solve_m fuel (fp - sp)
                      (encrypt_byte m b fp - encrypt_byte m b sp) 256 ;;
              b0 <- py_mod (encrypt_byte m b fp - fp * m0) 256 ;;
              x0 <- m_inverse_affine fuel m0 256 ;;
              Ok (AffineParameters.mk m0 x0 b0))
             = Ok (AffineParameters.mk m x b)).
  { intros fp sp Hsp Hfp Hle Hoddd Hd1.
    assert (Hd : 1 < fp - sp <= 255).
    { assert (fp - sp <> 0) by (intros E; rewrite E in Hoddd; discriminate). lia. }
    destruct (m_inverse_affine_256 fuel (fp - sp) Hd
                (odd_coprime_256 _ Hoddd) ltac:(lia)) as (y & Hy & _ & Hyinv).
    unfold solve_m. rewrite Hy.
    change (py_mod ?a 256) with (Ok (a mod 256)). cbn [bind].
    assert (Em : ((encrypt_byte m b fp - encrypt_byte m b sp) * y) mod 256 = m).
    { apply eqm_small; [apply Z.mod_pos_bound; lia | lia |].
      rewrite Zmod_eqm. unfold encrypt_byte. rewrite !Zmod_eqm.
      replace ((m * fp + b - (m * sp + b)) * y) with (m * ((fp - sp) * y)) by ring.
      assert (Ey : eqm 256 ((fp - sp) * y) 1) by exact Hyinv.
      rewrite Ey. now rewrite Z.mul_1_r. }
    rewrite Em.
    assert (Eb : (encrypt_byte m b fp - fp * m) mod 256 = b).
    { apply eqm_small; [apply Z.mod_pos_bound; lia | lia |].
      rewrite Zmod_eqm. unfold encrypt_byte. rewrite Zmod_eqm.
      replace (m * fp + b - fp * m) with b by ring. reflexivity. }
    rewrite Eb, Hx. reflexivity. }
  destruct (Z.ltb_spec p1 p2) as [Hlt|Hge].
  - apply G; try lia.
    replace (p2 - p1) with (- (p1 - p2)) by ring. rewrite Z.odd_opp. exact Hodd.
  - apply G; try lia. exact Hodd.
Qed.

(** Samples the solver cannot use. *)
Lemma key_from_samples_degenerate (fuel : nat) (p1 c1 p2 c2 : Z) :
  (p1 = p2 -> key_from_samples fuel p1 c1 p2 c2 = Raise ZeroDivisionError) /\
  (0 < Z.abs (p1 - p2) < 256 -> 256 mod Z.abs (p1 - p2) = 0 ->
   key_from_samples fuel p1 c1 p2 c2 = Raise IndexError).
Proof.
  unfold key_from_samples. change (MAX_BYTES + 1) with 256. split.
  - intros ->. rewrite Z.ltb_irrefl, Z.sub_diag, solve_m_equal_plaintexts.
    reflexivity.
  - intros Hd Hdiv.
    assert (G : forall d c, 0 < d < 256 -> 256 mod d = 0 ->
                solve_m fuel d c 256 = Raise IndexError).
    { intros d c Hd' Hdiv'. unfold solve_m.
      destruct (m_inverse_affine_divides fuel d 256 Hd' Hdiv') as [_ ->].
      reflexivity. }
    destruct (Z.ltb_spec p1 p2).
    + rewrite G; [reflexivity | lia |].
      replace (p2 - p1) with (Z.abs (p1 - p2)) by lia. exact Hdiv.
    + rewrite G; [reflexivity | lia |].
      replace (p1 - p2) with (Z.abs (p1 - p2)) by lia. exact Hdiv.
Qed.

(** ** The decryption loops of the drivers *)

Lemma nth_error_skipn {A : Type} (l : list A) :
  forall k c, nth_error l k = Some c -> skipn k l = c :: skipn (S k) l.
Proof.
  induction l as [|a l IH]; intros [|k] c H; cbn in H; try discriminate.
  - injection H as ->. reflexivity.
  - exact (IH k c H).
Qed.

Lemma py_bytearray_mod (a : Z) : py_bytearray [a mod 256] = Finished [a mod 256].
Proof.
  unfold py_bytearray. cbn [forallb].
  pose proof (Z.mod_pos_bound a 256 ltac:(lia)) as H.
  destruct (Z.leb_spec 0 (a mod 256)); [|lia].
  destruct (Z.ltb_spec (a mod 256) 256); [|lia]. reflexivity.
Qed.

Lemma decrypt_loop_from (m_inverse b : Z) (ciphertext : list Z) (count : nat) :
  forall (k : nat) (plaintext : list Z),
    (k + count = length ciphertext)%nat ->
    BruteForce.decrypt_loop m_inverse b ciphertext
      (range_from (Z.of_nat k) count) plaintext
    = Finished (plaintext ++
                map (fun c => (m_inverse * (c - b)) mod 256) (skipn k ciphertext)).
Proof.
  induction count as [|count IH]; intros k plaintext Hk;
    cbn [range_from BruteForce.decrypt_loop].
  - rewrite skipn_all2 by lia. cbn [map]. rewrite app_nil_r. reflexivity.
  - destruct (nth_error ciphertext k) as [c|] eqn:E.
    2:{ apply nth_error_None in E. lia. }
    rewrite (py_getitem_nat ciphertext k c E). cbn [of_result bind_outcome].
    rewrite decrypt_affine_256. cbn [of_result bind_outcome].
    rewrite py_bytearray_mod. cbn [bind_outcome].
    replace (Z.of_nat k + 1) with (Z.of_nat (S k)) by lia.
    rewrite IH by lia. rewrite (nth_error_skipn ciphertext k c E).
    cbn [map]. rewrite <- app_assoc. reflexivity.
Qed.

Lemma decrypt_loop_all (m_inverse b : Z) (ciphertext : list Z) :
  BruteForce.decrypt_loop m_inverse b ciphertext
    (py_range 0 (Z.of_nat (length ciphertext))) []
  = Finished (map (fun c => (m_inverse * (c - b)) mod 256) ciphertext).
Proof.
  unfold py_range. rewrite Z.sub_0_r, Nat2Z.id.
  apply (decrypt_loop_from m_inverse b ciphertext (length ciphertext) 0 []).
  reflexivity.
Qed.

Lemma cryptanalysis_decrypt_loop_eq (fuel : nat) (m_inverse b : Z)
    (ciphertext indices : list Z) :
  forall plaintext,
    Cryptanalysis.decrypt_loop fuel m_inverse b ciphertext indices plaintext =
    BruteForce.decrypt_loop m_inverse b ciphertext indices plaintext.
Proof.
  induction indices as [|i indices IH]; intros plaintext; [reflexivity|].
  cbn [Cryptanalysis.decrypt_loop BruteForce.decrypt_loop].
  destruct (of_result (py_getitem ciphertext i)) as [c| | |];
    cbn [bind_outcome]; try reflexivity.
  change (Cryptanalysis.decrypt_affine fuel m_inverse (MAX_BYTES + 1) b c true)
    with (BruteForce.decrypt_affine m_inverse (MAX_BYTES + 1) b c).
  destruct (of_result (BruteForce.decrypt_affine m_inverse (MAX_BYTES + 1) b c))
    as [P| | |]; cbn [bind_outcome]; try reflexivity.
  destruct (py_bytearray [P]) as [byte| | |]; cbn [bind_outcome];
    try reflexivity.
  apply IH.
Qed.

(** Decrypting what was encrypted, byte by byte. *)
Lemma decrypt_encrypt_byte (m b i P : Z) :
  (m * i) mod 256 = 1 -> is_byte P ->
  (i * (encrypt_byte m b P - b)) mod 256 = P.
Proof.
  intros Hinv HP. unfold is_byte in HP.
  apply eqm_small; [apply Z.mod_pos_bound; lia | lia |].
  rewrite Zmod_eqm. unfold encrypt_byte. rewrite Zmod_eqm.
  replace (i * (m * P + b - b)) with ((m * i) * P) by ring.
  assert (E : eqm 256 (m * i) 1) by exact Hinv.
  rewrite E. now rewrite Z.mul_1_l.
Qed.

Lemma decrypt_encrypt_bytes (m b i : Z) (plaintext : list Z) :
  (m * i) mod 256 = 1 -> Forall is_byte plaintext ->
  map (fun c => (i * (c - b)) mod 256) (map (encrypt_byte m b) plaintext)
  = plaintext.
Proof.
  intros Hinv Hall. induction Hall as [|P plaintext HP Hall IH]; [reflexivity|].
  cbn [map]. rewrite IH, (decrypt_encrypt_byte m b i P Hinv HP). reflexivity.
Qed.

(** ** The drivers *)

Lemma exhaustive_decrypt_eq (fuel : nat) (ciphertext : list Z) :
  (gcd_fuel <= fuel)%nat ->
  ExhaustiveKey.decrypt fuel ciphertext = BruteForce.decrypt ciphertext.
Proof.
  intros Hfuel. unfold ExhaustiveKey.decrypt, BruteForce.decrypt.
  rewrite (exhaustive_key_eq_brute_force fuel ciphertext Hfuel).
  reflexivity.
Qed.

Lemma nth_map_in_range {A : Type} (f : A -> Z) (l : list A) (k : nat) (d : A) :
  (k < length l)%nat -> nth k (map f l) 0 = f (nth k l d).
Proof.
  intros H. rewrite (nth_indep (map f l) 0 (f d)) by (rewrite length_map; exact H).
  apply map_nth.
Qed.

Lemma remove_at_map {A B : Type} (f : A -> B) (l : list A) :
  forall k, remove_at k (map f l) = map f (remove_at k l).
Proof.
  induction l as [|a l IH]; intros [|k]; cbn [map remove_at]; try reflexivity.
  rewrite IH. reflexivity.
Qed.

Lemma Forall_remove_at {A : Type} (P : A -> Prop) (l : list A) :
  forall k, Forall P l -> Forall P (remove_at k l).
Proof.
  induction l as [|a l IH]; intros [|k] H; cbn [remove_at]; try assumption;
    inversion H; subst; [assumption|]. constructor; [assumption | now apply IH].
Qed.

Lemma Forall_nth_byte (l : list Z) (k : nat) :
  Forall is_byte l -> (k < length l)%nat -> is_byte (nth k l 0).
Proof.
  intros H Hk. rewrite Forall_forall in H. apply H. apply nth_In. exact Hk.
Qed.

(** The key found by [analyze_affine] on two files that hold the same
    bytes before and after encryption. *)
Lemma analyze_affine_true_key (fuel : nat) (i1 i2 : Z) (m b : Z) (known : list Z) :
  (255 <= fuel)%nat ->
  1 < m <= 255 -> Z.odd m = true -> is_byte b ->
  Forall is_byte known -> (2 <= length known)%nat ->
  valid_draws (length known) i1 i2 ->
  let p1 := nth (Z.to_nat i1) known 0 in
  let p2 := nth (Z.to_nat i2) (remove_at (Z.to_nat i1) known) 0 in
  Z.odd (p1 - p2) = true -> Z.abs (p1 - p2) <> 1 ->
  exists m_inverse,
    analyze_affine fuel i1 i2 known (map (encrypt_byte m b) known)
      = Ok (AffineParameters.mk m m_inverse b) /\
    0 < m_inverse < 256 /\ (m * m_inverse) mod 256 = 1.
Proof.
  intros Hfuel Hm Hoddm Hb Hknown Hlen Hdraws p1 p2 Hodd Hne.
  unfold analyze_affine.
  rewrite analyze_known_plaintext_drawn;
    [|rewrite length_map; reflexivity | exact Hlen | exact Hdraws].
  destruct Hdraws as [Hi1 Hi2].
  rewrite remove_at_map.
  rewrite (nth_map_in_range _ known _ 0) by lia.
  rewrite (nth_map_in_range _ (remove_at (Z.to_nat i1) known) _ 0)
    by (rewrite length_remove_at by lia; lia).
  apply key_from_samples_true_key; try assumption.
  - apply Forall_nth_byte; [exact Hknown | lia].
  - apply Forall_nth_byte; [apply Forall_remove_at; exact Hknown|].
    rewrite length_remove_at by lia. lia.
Qed.

Lemma decrypt_from_known_plaintext_true_key (fuel : nat) (i1 i2 : Z) (m b : Z)
    (plaintext known : list Z) :
  (255 <= fuel)%nat ->
  1 < m <= 255 -> Z.odd m = true -> is_byte b ->
  Forall is_byte plaintext ->
  Forall is_byte known -> (2 <= length known)%nat ->
  valid_draws (length known) i1 i2 ->
  let p1 := nth (Z.to_nat i1) known 0 in
  let p2 := nth (Z.to_nat i2) (remove_at (Z.to_nat i1) known) 0 in
  Z.odd (p1 - p2) = true -> Z.abs (p1 - p2) <> 1 ->
  decrypt_from_known_plaintext fuel i1 i2
    (map (encrypt_byte m b) plaintext) known (map (encrypt_byte m b) known)
  = Finished plaintext.
Proof.
  intros Hfuel Hm Hoddm Hb Hplain Hknown Hlen Hdraws p1 p2 Hodd Hne.
  destruct (analyze_affine_true_key fuel i1 i2 m b known Hfuel Hm Hoddm Hb
              Hknown Hlen Hdraws Hodd Hne) as (x & Hkey & _ & Hinv).
  unfold decrypt_from_known_plaintext. rewrite Hkey.
  cbn [of_result bind_outcome AffineParameters.m_inverse AffineParameters.b].
  rewrite cryptanalysis_decrypt_loop_eq, decrypt_loop_all.
  rewrite (decrypt_encrypt_bytes m b x plaintext Hinv Hplain). reflexivity.
Qed.

(** ** Statements *)

(** X1: when the first two ciphertext bytes are the encryption of the
    JPEG signature 0xFF 0xD8 under a key [(m, b)] with [b] a byte, and
    [i] in [1, 255] is the inverse of [m] modulo 256, [brute_force]
    returns exactly the decryption key [(i, b)]. *)
Theorem brute_force_recovers_key (m b i : Z) (rest : list Z) :
  0 <= b <= 255 -> 1 <= i <= 255 -> (m * i) mod 256 = 1 ->
  BruteForce.brute_force
    (encrypt_byte m b 0xFF :: encrypt_byte m b 0xD8 :: rest)
  = Ok (Some (i, b)).
Proof. apply brute_force_true_key. Qed.

Lemma brute_force_recovers_key_witness :
  BruteForce.brute_force (encrypt_byte 3 7 0xFF :: encrypt_byte 3 7 0xD8 :: [9])
  = Ok (Some (171, 7)).
Proof.
  apply (brute_force_recovers_key 3 7 171 [9]); [lia | lia | reflexivity].
Defined.

(** X2: on a ciphertext of at least two bytes [brute_force] returns the
    pair [(None, None)] exactly when its first two bytes differ by an
    even amount; otherwise it returns a key. *)
Theorem brute_force_fails_iff_even_difference (c0 c1 : Z) (rest : list Z) :
  (BruteForce.brute_force (c0 :: c1 :: rest) = Ok None <->
   Z.even (c0 - c1) = true) /\
  ((exists i j, BruteForce.brute_force (c0 :: c1 :: rest) = Ok (Some (i, j))) <->
   Z.odd (c0 - c1) = true).
Proof.
  split; [apply brute_force_none_iff|].
  split.
  - intros (i & j & H).
    destruct (brute_force_sound _ _ _ _ _ H) as (_ & Hsig & _).
    exact (signature_needs_odd_difference _ _ _ _ Hsig).
  - intros Hodd.
    destruct (brute_force_returns c0 c1 rest) as ([[i j]|] & H).
    + exists i, j. exact H.
    + apply brute_force_none_iff in H.
      rewrite <- Z.negb_odd, Hodd in H. discriminate.
Qed.

Lemma brute_force_fails_iff_even_difference_witness :
  BruteForce.brute_force [4; 144; 9] = Ok None.
Proof.
  apply (proj1 (brute_force_fails_iff_even_difference 4 144 [9])). reflexivity.
Defined.

(** X3: on a ciphertext of fewer than two bytes [brute_force] raises
    [IndexError], and so does the driver [decrypt]: with one byte, some
    key always passes the test on the first byte and the second byte is
    then read. *)
Theorem brute_force_short_ciphertext (ciphertext : list Z) :
  (length ciphertext < 2)%nat ->
  BruteForce.brute_force ciphertext = Raise IndexError /\
  BruteForce.decrypt ciphertext = Failed IndexError.
Proof.
  intros H. pose proof (brute_force_short ciphertext H) as E.
  split; [exact E|]. unfold BruteForce.decrypt. rewrite E. reflexivity.
Qed.

Lemma brute_force_short_ciphertext_witness :
  BruteForce.brute_force [200] = Raise IndexError /\
  BruteForce.decrypt [200] = Failed IndexError.
Proof. apply (brute_force_short_ciphertext [200]). cbn. lia. Defined.

(** X4: the driver [decrypt] of brute_force_affine.py writes back the
    original file: for a plaintext of bytes that starts with 0xFF 0xD8,
    encrypted byte by byte under a key [(m, b)] whose [m] has an inverse
    [i] modulo 256, the content written is the plaintext. *)
Theorem brute_force_decrypt_recovers_file (m b i : Z) (tail : list Z) :
  is_byte b -> 1 <= i <= 255 -> (m * i) mod 256 = 1 ->
  Forall is_byte tail ->
  BruteForce.decrypt (map (encrypt_byte m b) (0xFF :: 0xD8 :: tail))
  = Finished (Some (0xFF :: 0xD8 :: tail)).
Proof.
  intros Hb Hi Hinv Htail. unfold BruteForce.decrypt.
  cbn [map]. rewrite (brute_force_true_key m b i _ Hb Hi Hinv).
  cbn [of_result bind_outcome].
  rewrite decrypt_loop_all. cbn [bind_outcome].
  change (encrypt_byte m b 255 :: encrypt_byte m b 216 :: map (encrypt_byte m b) tail)
    with (map (encrypt_byte m b) (255 :: 216 :: tail)).
  rewrite (decrypt_encrypt_bytes m b i); [reflexivity | exact Hinv|].
  repeat constructor; try assumption; unfold is_byte; lia.
Qed.

Lemma brute_force_decrypt_recovers_file_witness :
  BruteForce.decrypt (map (encrypt_byte 3 7) [0xFF; 0xD8; 1; 200])
  = Finished (Some [0xFF; 0xD8; 1; 200]).
Proof.
  apply (brute_force_decrypt_recovers_file 3 7 171 [1; 200]).
  - unfold is_byte. lia.
  - lia.
  - reflexivity.
  - repeat constructor; unfold is_byte; lia.
Defined.

(** X5: on a file of at least two bytes the driver [decrypt] never fails:
    it writes nothing when the first two bytes differ by an even amount,
    and otherwise writes as many bytes as it read, all in [0, 255], the
    first two being 0xFF 0xD8. *)
Theorem brute_force_decrypt_outcomes (c0 c1 : Z) (rest : list Z) :
  (Z.even (c0 - c1) = true ->
   BruteForce.decrypt (c0 :: c1 :: rest) = Finished None) /\
  (Z.odd (c0 - c1) = true ->
   exists plaintext,
     BruteForce.decrypt (c0 :: c1 :: rest) = Finished (Some plaintext) /\
     length plaintext = length (c0 :: c1 :: rest) /\
     Forall is_byte plaintext /\
     firstn 2 plaintext = [0xFF; 0xD8]).
Proof.
  unfold BruteForce.decrypt. split.
  - intros Heven. apply (brute_force_none_iff c0 c1 rest) in Heven.
    rewrite Heven. reflexivity.
  - intros Hodd.
    destruct (brute_force_returns c0 c1 rest) as ([[i j]|] & H).
    + destruct (brute_force_sound _ _ _ _ _ H) as (_ & Hsig & _).
      rewrite H. cbn [of_result bind_outcome]. rewrite decrypt_loop_all.
      cbn [bind_outcome]. eexists. split; [reflexivity|].
      split; [apply length_map|]. split.
      * apply Forall_forall. intros x Hx. apply in_map_iff in Hx.
        destruct Hx as (c & <- & _).
        pose proof (Z.mod_pos_bound (i * (c - j)) 256 ltac:(lia)).
        unfold is_byte. lia.
      * destruct Hsig as [H0 H1]. rewrite decrypt_affine_256 in H0, H1.
        injection H0 as H0. injection H1 as H1.
        cbn [map firstn]. rewrite H0, H1. reflexivity.
    + apply (brute_force_none_iff c0 c1 rest) in H.
      rewrite <- Z.negb_odd, Hodd in H. discriminate.
Qed.

Lemma brute_force_decrypt_outcomes_witness :
  BruteForce.decrypt [4; 144; 9] = Finished None.
Proof.
  apply (proj1 (brute_force_decrypt_outcomes 4 144 [9])). reflexivity.
Defined.

(** X6: given fuel for its [gcd] calls, [exhaustive_key] returns or
    raises exactly what [brute_force] does, on every ciphertext, and the
    two [decrypt] drivers write the same content. *)
Theorem exhaustive_key_equals_brute_force (fuel : nat) (ciphertext : list Z) :
  (gcd_fuel <= fuel)%nat ->
  ExhaustiveKey.exhaustive_key fuel ciphertext =
    BruteForce.brute_force ciphertext /\
  ExhaustiveKey.decrypt fuel ciphertext = BruteForce.decrypt ciphertext.
Proof.
  intros Hfuel. split.
  - apply exhaustive_key_eq_brute_force. exact Hfuel.
  - apply exhaustive_decrypt_eq. exact Hfuel.
Qed.

Lemma exhaustive_key_equals_brute_force_witness :
  ExhaustiveKey.exhaustive_key 19 [7] = BruteForce.brute_force [7] /\
  ExhaustiveKey.decrypt 19 [7] = BruteForce.decrypt [7].
Proof.
  apply (exhaustive_key_equals_brute_force 19 [7]). unfold gcd_fuel. lia.
Defined.

(** X7: on non-negative arguments [gcd] returns the greatest common
    divisor, within [2 * min(a, b) + 2] nested calls. *)
Theorem gcd_returns_gcd (fuel : nat) (a b : Z) :
  0 <= a -> 0 <= b -> (2 * Z.to_nat (Z.min a b) + 2 <= fuel)%nat ->
  ExhaustiveKey.gcd fuel a b = Ok (Z.gcd a b).
Proof.
  intros Ha Hb Hfuel. destruct (Z.le_gt_cases a b) as [Hab|Hab].
  - apply (gcd_ordered (Z.to_nat a)); lia.
  - destruct fuel as [|fuel]; [lia|]. cbn [ExhaustiveKey.gcd].
    destruct (Z.gtb_spec a b); [|lia].
    rewrite (gcd_ordered (Z.to_nat b)) by lia. rewrite Z.gcd_comm. reflexivity.
Qed.

Lemma gcd_returns_gcd_witness : ExhaustiveKey.gcd 26 18 12 = Ok 6.
Proof. apply (gcd_returns_gcd 26 18 12); [lia | lia | cbn; lia]. Defined.

(** X8: when one argument is negative, [gcd] never returns, whatever the
    number of nested calls allowed: the recursion repeats the same call. *)
Theorem gcd_never_returns_on_negative (fuel : nat) (a b : Z) :
  a < 0 \/ b < 0 -> ExhaustiveKey.gcd fuel a b = OutOfFuel.
Proof.
  intros H. destruct (Z.le_gt_cases a b) as [Hab|Hab].
  - apply gcd_negative_le; lia.
  - destruct fuel as [|fuel]; [reflexivity|]. cbn [ExhaustiveKey.gcd].
    destruct (Z.gtb_spec a b); [|lia].
    apply gcd_negative_le; lia.
Qed.

Lemma gcd_never_returns_on_negative_witness :
  ExhaustiveKey.gcd 1000 (-1) 5 = OutOfFuel.
Proof. apply (gcd_never_returns_on_negative 1000 (-1) 5). left. lia. Defined.

(** X9: [modulo_formula] does not depend on the order of its arguments;
    it raises [ZeroDivisionError] when the smaller one is 0; otherwise it
    divides the larger one by the smaller one: [q = k * p + r] with
    [|r| < |p|], and [0 <= r] when both are positive. *)
Theorem modulo_formula_divides_larger_by_smaller (p q : Z) :
  modulo_formula p q = modulo_formula q p /\
  (Z.min p q = 0 -> modulo_formula p q = Raise ZeroDivisionError) /\
  (Z.min p q <> 0 ->
   exists s, modulo_formula p q = Ok s /\
     ModuloStep.p s = Z.min p q /\ ModuloStep.q s = Z.max p q /\
     ModuloStep.q s = ModuloStep.k s * ModuloStep.p s + ModuloStep.r s /\
     Z.abs (ModuloStep.r s) < Z.abs (ModuloStep.p s) /\
     (0 < Z.min p q -> 0 <= ModuloStep.r s)).
Proof.
  split; [apply modulo_formula_comm | apply modulo_formula_min_max_division].
Qed.

Lemma modulo_formula_divides_larger_by_smaller_witness :
  modulo_formula 256 0 = Raise ZeroDivisionError.
Proof.
  apply (proj1 (proj2 (modulo_formula_divides_larger_by_smaller 256 0))).
  reflexivity.
Defined.

(** X10: the chain that [fill_gcd_affine] returns, or carries in its
    exception of code 3, is the Euclidean division chain of [(m, n)]: it
    starts with the division of [n] by [m], every step divides
    ([q = k * p + r], [0 <= r < p]) and continues the one before it, only
    the last step has no remainder, the divisor of the last step is
    [gcd(m, n)], and there are at most [m] steps. *)
Theorem fill_gcd_affine_builds_euclid_chain
    (fuel : nat) (m n : Z) (chain : list ModuloStep.t) :
  0 < m ->
  fill_gcd_affine fuel m n = Ok chain \/
  fill_gcd_affine fuel m n = Raise (AffineException 3 (Some chain)) ->
  exists s rest,
    chain = s :: rest /\ ModuloStep.p s = m /\ ModuloStep.q s = n /\
    euclid_chain chain /\
    ModuloStep.p (last rest s) = Z.gcd m n /\
    (length chain <= Z.to_nat m)%nat.
Proof.
  intros Hm H.
  assert (G : exists s suf, chain = s :: suf /\ ModuloStep.p s = m /\
                            ModuloStep.q s = n /\ step_ok s /\ steps_from s suf).
  { destruct H as [H|H].
    - destruct (fill_gcd_affine_chain fuel m n chain Hm H)
        as (_ & s & suf & pen & E & Hp & Hq & Hok & Hsteps & _).
      exists s, suf. tauto.
    - destruct (fill_gcd_affine_dump fuel m n chain Hm H)
        as (_ & s & suf & pen & E & Hp & Hq & Hok & Hsteps & _).
      exists s, suf. tauto. }
  destruct G as (s & suf & -> & Hp & Hq & Hok & Hsteps).
  exists s, suf. split; [reflexivity|]. split; [exact Hp|]. split; [exact Hq|].
  split; [exact (steps_from_euclid_chain s suf Hsteps Hok)|].
  destruct (steps_from_gcd s suf Hsteps Hok) as (Hg & _).
  split; [rewrite Hg, Hp, Hq; reflexivity|].
  pose proof (steps_from_length s suf Hsteps Hok) as Hlen.
  destruct Hok as (_ & _ & _ & Hr). cbn [length]. lia.
Qed.

Lemma fill_gcd_affine_builds_euclid_chain_witness :
  exists s rest,
    [ModuloStep.mk 6 256 42 4; ModuloStep.mk 4 6 1 2; ModuloStep.mk 2 4 2 0]
      = s :: rest /\
    ModuloStep.p s = 6 /\ ModuloStep.q s = 256 /\
    euclid_chain
      [ModuloStep.mk 6 256 42 4; ModuloStep.mk 4 6 1 2; ModuloStep.mk 2 4 2 0] /\
    ModuloStep.p (last rest s) = Z.gcd 6 256 /\
    (length
       [ModuloStep.mk 6 256 42 4; ModuloStep.mk 4 6 1 2; ModuloStep.mk 2 4 2 0]
     <= Z.to_nat 6)%nat.
Proof.
  apply (fill_gcd_affine_builds_euclid_chain 2 6 256); [lia|].
  right. reflexivity.
Defined.

(** X11: whenever [m] divides [n] ([0 < m < n]), [fill_gcd_affine] and
    [m_inverse_affine] raise [IndexError], for every amount of fuel: the
    chain has one step and [gcd_affine[-2]] is read. *)
Theorem divisor_of_modulus_raises_index_error (fuel : nat) (m n : Z) :
  0 < m < n -> n mod m = 0 ->
  fill_gcd_affine fuel m n = Raise IndexError /\
  m_inverse_affine fuel m n = Raise IndexError.
Proof. apply m_inverse_affine_divides. Qed.

Lemma divisor_of_modulus_raises_index_error_witness :
  fill_gcd_affine 5 13 26 = Raise IndexError /\
  m_inverse_affine 5 13 26 = Raise IndexError.
Proof.
  apply (divisor_of_modulus_raises_index_error 5 13 26); [lia | reflexivity].
Defined.

(** X12: when [0 < m < n] are not coprime and [m] does not divide [n],
    [fill_gcd_affine] and [m_inverse_affine] raise the [AffineException]
    of code 3, whose dump is the chain; the last step of the dump has
    [gcd(m, n)] as its [p]. *)
Theorem not_coprime_raises_code_3 (fuel : nat) (m n : Z) :
  0 < m < n -> n mod m <> 0 -> Z.gcd m n <> 1 -> (Z.to_nat m <= fuel)%nat ->
  exists dump last,
    fill_gcd_affine fuel m n = Raise (AffineException 3 (Some dump)) /\
    m_inverse_affine fuel m n = Raise (AffineException 3 (Some dump)) /\
    py_getitem dump (-1) = Ok last /\ ModuloStep.p last = Z.gcd m n.
Proof.
  intros Hm Hnd Hg Hfuel.
  destruct (fill_gcd_affine_not_coprime fuel m n Hm Hnd Hg Hfuel)
    as (dump & last & Hfill & Hlast & Hp).
  exists dump, last. split; [exact Hfill|]. split; [|split; assumption].
  unfold m_inverse_affine. destruct (Z.leb_spec n m); [lia|].
  rewrite Hfill. reflexivity.
Qed.

Lemma not_coprime_raises_code_3_witness :
  exists dump last,
    fill_gcd_affine 6 6 256 = Raise (AffineException 3 (Some dump)) /\
    m_inverse_affine 6 6 256 = Raise (AffineException 3 (Some dump)) /\
    py_getitem dump (-1) = Ok last /\ ModuloStep.p last = Z.gcd 6 256.
Proof.
  apply (not_coprime_raises_code_3 6 6 256); [lia | discriminate | discriminate |].
  cbn. lia.
Defined.

(** X13: for every modulus [n] and every [1 < m < n] coprime with it,
    [m_inverse_affine], with fuel for [m] iterations, returns the inverse
    of [m] modulo [n], in [1, n - 1]. *)
Theorem m_inverse_affine_returns_inverse (fuel : nat) (m n : Z) :
  1 < m < n -> Z.gcd m n = 1 -> (Z.to_nat m <= fuel)%nat ->
  exists x, m_inverse_affine fuel m n = Ok x /\ 0 < x < n /\ (m * x) mod n = 1.
Proof.
  intros Hm Hg Hfuel.
  destruct (m_inverse_affine_correct fuel m n Hm Hg Hfuel) as (x & Hx & _).
  exists x. split; [exact Hx|].
  destruct (m_inverse_affine_sound fuel m n x Hx) as (_ & _ & Hr & Hinv).
  split; assumption.
Qed.

Lemma m_inverse_affine_returns_inverse_witness :
  exists x, m_inverse_affine 7 7 26 = Ok x /\ 0 < x < 26 /\ (7 * x) mod 26 = 1.
Proof.
  apply (m_inverse_affine_returns_inverse 7 7 26); [lia | reflexivity | cbn; lia].
Defined.

(** X14: whatever the arguments and the fuel, when [m_inverse_affine]
    returns a value [x], then [1 < m < n], [m] and [n] are coprime, and
    [x] is the inverse of [m] modulo [n] in [1, n - 1]. *)
Theorem m_inverse_affine_returns_only_inverses (fuel : nat) (m n x : Z) :
  m_inverse_affine fuel m n = Ok x ->
  1 < m < n /\ Z.gcd m n = 1 /\ 0 < x < n /\ (m * x) mod n = 1.
Proof. apply m_inverse_affine_sound. Qed.

Lemma m_inverse_affine_returns_only_inverses_witness :
  1 < 7 < 26 /\ Z.gcd 7 26 = 1 /\ 0 < 15 < 26 /\ (7 * 15) mod 26 = 1.
Proof.
  apply (m_inverse_affine_returns_only_inverses 3 7 26 15). reflexivity.
Defined.

(** X15: [m_inverse_affine] undoes itself: for [1 < m < n] coprime and
    fuel for [n] iterations, the inverse of the inverse of [m] is [m]. *)
Theorem m_inverse_affine_involutive (fuel : nat) (m n : Z) :
  1 < m < n -> Z.gcd m n = 1 -> (Z.to_nat n <= fuel)%nat ->
  exists x, m_inverse_affine fuel m n = Ok x /\
            m_inverse_affine fuel x n = Ok m.
Proof.
  intros Hm Hg Hfuel.
  destruct (m_inverse_affine_correct fuel m n Hm Hg ltac:(lia)) as (x & Hx & _ & _).
  destruct (m_inverse_affine_sound fuel m n x Hx) as (_ & _ & Hxr & Hinv).
  exists x. split; [exact Hx|].
  assert (Hx1 : x <> 1).
  { intros ->. rewrite Z.mul_1_r, Z.mod_small in Hinv by lia. lia. }
  assert (Hgx : Z.gcd x n = 1).
  { apply Z.bezout_1_gcd. exists m, (- ((m * x) / n)).
    pose proof (Z.div_mod (m * x) n ltac:(lia)). lia. }
  destruct (m_inverse_affine_correct fuel x n ltac:(lia) Hgx ltac:(lia))
    as (z & Hz & Hzr & Hinvz).
  rewrite Hz. f_equal.
  apply (inverse_unique n m x z); [lia | exact Hzr | exact Hinv | exact Hinvz].
Qed.

Lemma m_inverse_affine_involutive_witness :
  exists x, m_inverse_affine 26 7 26 = Ok x /\ m_inverse_affine 26 x 26 = Ok 7.
Proof.
  apply (m_inverse_affine_involutive 26 7 26); [lia | reflexivity | cbn; lia].
Defined.

(** X16: [decrypt_affine] of cryptanalysis_affine.py, called with the
    encryption multiplier ([is_m_inverse=False]), inverts the encryption
    [C = (m * P + b) mod n] for every modulus [n], every [1 < m < n]
    coprime with it and every [P] in [0, n). *)
Theorem decrypt_affine_inverts_encryption (fuel : nat) (m n b P : Z) :
  1 < m < n -> Z.gcd m n = 1 -> (Z.to_nat m <= fuel)%nat -> 0 <= P < n ->
  Cryptanalysis.decrypt_affine fuel m n b ((m * P + b) mod n) false = Ok P.
Proof.
  intros Hm Hg Hfuel HP. unfold Cryptanalysis.decrypt_affine.
  destruct (m_inverse_affine_correct fuel m n Hm Hg Hfuel) as (x & -> & _ & Hinv).
  cbn [bind]. unfold py_mod. destruct (Z.eqb_spec n 0); [lia|]. f_equal.
  assert (E1 : eqm n (m * x) 1) by (unfold eqm; rewrite Hinv, Z.mod_small; lia).
  assert (E : eqm n (x * ((m * P + b) mod n - b)) P).
  { rewrite Zmod_eqm. replace (x * (m * P + b - b)) with ((m * x) * P) by ring.
    rewrite E1. now rewrite Z.mul_1_l. }
  unfold eqm in E. rewrite E. apply Z.mod_small. exact HP.
Qed.

Lemma decrypt_affine_inverts_encryption_witness :
  Cryptanalysis.decrypt_affine 7 7 26 3 ((7 * 11 + 3) mod 26) false = Ok 11.
Proof.
  apply (decrypt_affine_inverts_encryption 7 7 26 3 11);
    [lia | reflexivity | cbn; lia | lia].
Defined.

(** X17: the [try] block of [analyze_known_plaintext] (lines 214-234),
    for a positive plaintext difference [p]: whenever it yields a
    multiplier [m], in the coprime situation as in the reduced one, then
    [0 <= m < n] and [m * p = c (mod n)]. *)
Theorem known_plaintext_congruence_solved (fuel : nat) (p c n m : Z) :
  0 < p -> solve_m fuel p c n = Ok m ->
  0 <= m < n /\ (m * p) mod n = c mod n.
Proof. apply solve_m_sound. Qed.

Lemma known_plaintext_congruence_solved_witness :
  0 <= 86 < 256 /\ (86 * 6) mod 256 = 4 mod 256.
Proof.
  apply (known_plaintext_congruence_solved 6 6 4 256 86); [lia | reflexivity].
Defined.

(** X18: whenever [analyze_known_plaintext] returns a key, on lists of
    the same length of two samples or more, that key explains the two
    samples drawn: [c = m * p + b (mod 256)] for both, with [1 < m < 256],
    [0 <= b < 256], and [m^-1] the inverse of [m] modulo 256. *)
Theorem analyze_known_plaintext_key_explains_samples
    (fuel : nat) (i1 i2 : Z) (pt ct : list Z) (key : AffineParameters.t) :
  length pt = length ct -> (2 <= length pt)%nat ->
  valid_draws (length pt) i1 i2 ->
  fst (analyze_known_plaintext fuel i1 i2 (mkSamples pt ct)) = Ok key ->
  1 < AffineParameters.m key < 256 /\
  0 <= AffineParameters.b key < 256 /\
  0 < AffineParameters.m_inverse key < 256 /\
  (AffineParameters.m key * AffineParameters.m_inverse key) mod 256 = 1 /\
  (AffineParameters.m key * nth (Z.to_nat i1) pt 0 + AffineParameters.b key)
    mod 256 = nth (Z.to_nat i1) ct 0 mod 256 /\
  (AffineParameters.m key * nth (Z.to_nat i2) (remove_at (Z.to_nat i1) pt) 0
   + AffineParameters.b key) mod 256
  = nth (Z.to_nat i2) (remove_at (Z.to_nat i1) ct) 0 mod 256.
Proof.
  intros Hlen H2 Hdraws H.
  rewrite (analyze_known_plaintext_drawn fuel i1 i2 pt ct Hlen H2 Hdraws) in H.
  exact (key_from_samples_sound fuel _ _ _ _ key H).
Qed.

Lemma analyze_known_plaintext_key_explains_samples_witness :
  1 < 3 < 256 /\ 0 <= 7 < 256 /\ 0 < 171 < 256 /\ (3 * 171) mod 256 = 1 /\
  (3 * 2 + 7) mod 256 = 13 mod 256 /\ (3 * 5 + 7) mod 256 = 22 mod 256.
Proof.
  apply (analyze_known_plaintext_key_explains_samples 1 1 0 [5; 2] [22; 13]
           (AffineParameters.mk 3 171 7)).
  - reflexivity.
  - cbn. lia.
  - unfold valid_draws. cbn. lia.
  - reflexivity.
Defined.

(** X19: [analyze_affine] recovers the key: when the second file is the
    first one encrypted byte by byte under [(m, b)], with [m] odd in
    [3, 255] and [b] a byte, and the two plaintext bytes drawn differ by an
    odd amount other than 1, the result is [m], its inverse modulo 256,
    and [b]. *)
Theorem analyze_affine_recovers_key
    (fuel : nat) (i1 i2 : Z) (m b : Z) (known : list Z) :
  (255 <= fuel)%nat ->
  1 < m <= 255 -> Z.odd m = true -> is_byte b ->
  Forall is_byte known -> (2 <= length known)%nat ->
  valid_draws (length known) i1 i2 ->
  Z.odd (nth (Z.to_nat i1) known 0
         - nth (Z.to_nat i2) (remove_at (Z.to_nat i1) known) 0) = true ->
  Z.abs (nth (Z.to_nat i1) known 0
         - nth (Z.to_nat i2) (remove_at (Z.to_nat i1) known) 0) <> 1 ->
  exists m_inverse,
    analyze_affine fuel i1 i2 known (map (encrypt_byte m b) known)
      = Ok (AffineParameters.mk m m_inverse b) /\
    0 < m_inverse < 256 /\ (m * m_inverse) mod 256 = 1.
Proof.
  intros Hfuel Hm Hoddm Hb Hknown Hlen Hdraws Hodd Hne.
  exact (analyze_affine_true_key fuel i1 i2 m b known Hfuel Hm Hoddm Hb
           Hknown Hlen Hdraws Hodd Hne).
Qed.

Lemma analyze_affine_recovers_key_witness :
  exists m_inverse,
    analyze_affine 255 2 0 [5; 9; 2] (map (encrypt_byte 3 7) [5; 9; 2])
      = Ok (AffineParameters.mk 3 m_inverse 7) /\
    0 < m_inverse < 256 /\ (3 * m_inverse) mod 256 = 1.
Proof.
  apply (analyze_affine_recovers_key 255 2 0 3 7 [5; 9; 2]).
  - lia.
  - lia.
  - reflexivity.
  - unfold is_byte. lia.
  - repeat constructor; unfold is_byte; lia.
  - cbn. lia.
  - unfold valid_draws. cbn. lia.
  - reflexivity.
  - simpl. lia.
Defined.

(** X20: samples [analyze_known_plaintext] cannot use: when the two
    plaintext bytes drawn are equal it raises [ZeroDivisionError], and
    when they differ by a divisor of 256 (1, 2, 4, ..., 128) it raises
    [IndexError]. *)
Theorem analyze_known_plaintext_unusable_samples
    (fuel : nat) (i1 i2 : Z) (pt ct : list Z) :
  length pt = length ct -> (2 <= length pt)%nat ->
  valid_draws (length pt) i1 i2 ->
  let d := nth (Z.to_nat i1) pt 0
           - nth (Z.to_nat i2) (remove_at (Z.to_nat i1) pt) 0 in
  (d = 0 ->
   fst (analyze_known_plaintext fuel i1 i2 (mkSamples pt ct))
   = Raise ZeroDivisionError) /\
  (0 < Z.abs d < 256 -> 256 mod Z.abs d = 0 ->
   fst (analyze_known_plaintext fuel i1 i2 (mkSamples pt ct))
   = Raise IndexError).
Proof.
  intros Hlen H2 Hdraws d.
  rewrite (analyze_known_plaintext_drawn fuel i1 i2 pt ct Hlen H2 Hdraws).
  destruct (key_from_samples_degenerate fuel
              (nth (Z.to_nat i1) pt 0) (nth (Z.to_nat i1) ct 0)
              (nth (Z.to_nat i2) (remove_at (Z.to_nat i1) pt) 0)
              (nth (Z.to_nat i2) (remove_at (Z.to_nat i1) ct) 0)) as [G0 G1].
  split.
  - intros Hd. apply G0. unfold d in Hd. lia.
  - exact G1.
Qed.

Lemma analyze_known_plaintext_unusable_samples_witness :
  fst (analyze_known_plaintext 9 0 0 (mkSamples [5; 6] [22; 25]))
  = Raise IndexError.
Proof.
  apply (proj2 (analyze_known_plaintext_unusable_samples 9 0 0 [5; 6] [22; 25]
                  eq_refl ltac:(cbn; lia) ltac:(unfold valid_draws; cbn; lia)));
    [simpl; lia | reflexivity].
Defined.

(** X21: the driver [decrypt_from_known_plaintext] writes back the
    original file: with a ciphertext and a known ciphertext that are the
    byte by byte encryptions of the plaintext and of the known plaintext
    under [(m, b)], [m] odd in [3, 255], [b] a byte, and two drawn known
    bytes that differ by an odd amount other than 1, the content written
    is the plaintext. *)
Theorem decrypt_from_known_plaintext_recovers_file
    (fuel : nat) (i1 i2 : Z) (m b : Z) (plaintext known : list Z) :
  (255 <= fuel)%nat ->
  1 < m <= 255 -> Z.odd m = true -> is_byte b ->
  Forall is_byte plaintext ->
  Forall is_byte known -> (2 <= length known)%nat ->
  valid_draws (length known) i1 i2 ->
  Z.odd (nth (Z.to_nat i1) known 0
         - nth (Z.to_nat i2) (remove_at (Z.to_nat i1) known) 0) = true ->
  Z.abs (nth (Z.to_nat i1) known 0
         - nth (Z.to_nat i2) (remove_at (Z.to_nat i1) known) 0) <> 1 ->
  decrypt_from_known_plaintext fuel i1 i2
    (map (encrypt_byte m b) plaintext) known (map (encrypt_byte m b) known)
  = Finished plaintext.
Proof.
  intros Hfuel Hm Hoddm Hb Hplain Hknown Hlen Hdraws Hodd Hne.
  exact (decrypt_from_known_plaintext_true_key fuel i1 i2 m b plaintext known
           Hfuel Hm Hoddm Hb Hplain Hknown Hlen Hdraws Hodd Hne).
Qed.

Lemma decrypt_from_known_plaintext_recovers_file_witness :
  decrypt_from_known_plaintext 255 2 0
    (map (encrypt_byte 3 7) [72; 105; 33]) [5; 9; 2]
    (map (encrypt_byte 3 7) [5; 9; 2])
  = Finished [72; 105; 33].
Proof.
  apply (decrypt_from_known_plaintext_recovers_file 255 2 0 3 7
           [72; 105; 33] [5; 9; 2]).
  - lia.
  - lia.
  - reflexivity.
  - unfold is_byte. lia.
  - repeat constructor; unfold is_byte; lia.
  - repeat constructor; unfold is_byte; lia.
  - cbn. lia.
  - unfold valid_draws. cbn. lia.
  - reflexivity.
  - simpl. lia.
Defined.
